(** * OCR utilities (ocr_utils.py): a shallow embedding and its properties

    The module is glue code around an OCR web API, a local OCR engine, a PDF
    rasterizer and an imaging library, plus two pure text utilities
    ([split_message], [get_text_statistics]).

    - Python [str] values are sequences of Unicode code points: [str] is
      [list char] with [char := N].  [len] is the number of code points.
    - Python [int] values are [Z].
    - The external libraries are oracles collected in a [World] record;
      exceptions are values of [exn]; every function that has a
      [try]/[except] is written in a small exception-and-trace monad. *)

From Stdlib Require Import List NArith ZArith Lia Bool String Ascii.
From Stdlib Require Decimal DecimalZ.
From Stdlib Require Strings.Byte QArith.
Import ListNotations.

Local Open Scope list_scope.
Local Open Scope Z_scope.

(* ================================================================== *)
(** ** Python strings *)

Module PyStr.

Definition char := N.
Definition str := list char.

(** A literal of the source, written with an ASCII Rocq string. *)
Definition lit (s : string) : str :=
  map N_of_ascii (list_ascii_of_string s).

Definition nl : char := 10%N.
Definition sp : char := 32%N.

(** [len(s)] *)
Definition len (s : str) : Z := Z.of_nat (List.length s).

(** Truthiness of a string: [if s:] holds for the non-empty ones. *)
Definition truthy (s : str) : bool :=
  match s with [] => false | _ :: _ => true end.

(** The characters [str.split()] and [str.strip()] treat as white space
    (CPython's [Py_UNICODE_ISSPACE]). *)
Definition isspace (c : char) : bool :=
  ((9 <=? c) && (c <=? 13))%N || ((28 <=? c) && (c <=? 32))%N
  || (c =? 133)%N || (c =? 160)%N || (c =? 5760)%N
  || ((8192 <=? c) && (c <=? 8202))%N
  || (c =? 8232)%N || (c =? 8233)%N || (c =? 8239)%N
  || (c =? 8287)%N || (c =? 12288)%N.

(** [s.split(sep)] for a one-character separator: never an empty list. *)
Fixpoint split_on (sep : char) (s : str) : list str :=
  match s with
  | [] => [[]]
  | c :: s' =>
      if (c =? sep)%N then [] :: split_on sep s'
      else match split_on sep s' with
           | [] => [[c]]
           | l :: ls => (c :: l) :: ls
           end
  end.

(** [s.split()]: the maximal runs of non-space characters, left to right.
    [w] is the run being scanned, most recent character first. *)
Fixpoint scan_words (w : str) (s : str) : list str :=
  match s with
  | [] => match w with [] => [] | _ => [rev w] end
  | c :: s' =>
      if isspace c
      then match w with
           | [] => scan_words [] s'
           | _ => rev w :: scan_words [] s'
           end
      else scan_words (c :: w) s'
  end.

Definition split_ws (s : str) : list str := scan_words [] s.

Fixpoint drop_while (p : char -> bool) (s : str) : str :=
  match s with
  | [] => []
  | c :: s' => if p c then drop_while p s' else s
  end.

Definition lstrip (s : str) : str := drop_while isspace s.
Definition rstrip (s : str) : str := rev (drop_while isspace (rev s)).
(** [s.strip()] *)
Definition strip (s : str) : str := rstrip (lstrip s).

(** ['\n'.join(xs)] and friends. *)
Fixpoint join (sep : str) (xs : list str) : str :=
  match xs with
  | [] => []
  | [x] => x
  | x :: xs' => x ++ sep ++ join sep xs'
  end.

(** [c * n] for a one-character string [c]. *)
Definition times (c : char) (n : nat) : str := repeat c n.

Definition digit_char (d : N) : char := (48 + d)%N.

Fixpoint uint_chars (u : Decimal.uint) : str :=
  match u with
  | Decimal.Nil => []
  | Decimal.D0 u => digit_char 0 :: uint_chars u
  | Decimal.D1 u => digit_char 1 :: uint_chars u
  | Decimal.D2 u => digit_char 2 :: uint_chars u
  | Decimal.D3 u => digit_char 3 :: uint_chars u
  | Decimal.D4 u => digit_char 4 :: uint_chars u
  | Decimal.D5 u => digit_char 5 :: uint_chars u
  | Decimal.D6 u => digit_char 6 :: uint_chars u
  | Decimal.D7 u => digit_char 7 :: uint_chars u
  | Decimal.D8 u => digit_char 8 :: uint_chars u
  | Decimal.D9 u => digit_char 9 :: uint_chars u
  end.

(** [str(n)] for an [int]. *)
Definition str_of_int (n : Z) : str :=
  match Z.to_int n with
  | Decimal.Pos u => uint_chars u
  | Decimal.Neg u => 45%N :: uint_chars u
  end.

(** A word: what [split()] returns, non-empty and free of white space. *)
Definition is_word (s : str) : Prop :=
  s <> [] /\ Forall (fun c => isspace c = false) s.

Definition has_nonspace (s : str) : bool :=
  existsb (fun c => negb (isspace c)) s.

End PyStr.
Import PyStr.

(* ================================================================== *)
(** ** Text utilities *)

(** One turn of the inner loop [for word in words]; the state is
    [(messages, temp)]. *)
Definition word_step (max_length : Z) (st : list str * str) (word : str)
  : list str * str :=
  let '(messages, temp) := st in
  if len temp + len word + 1 <=? max_length
  then (messages, temp ++ word ++ [sp])
  else (messages ++ [strip temp], word ++ [sp]).

(** One turn of the outer loop [for line in text.split('\n')]; the state
    is [(messages, current_message)]. *)
Definition line_step (max_length : Z) (st : list str * str) (line : str)
  : list str * str :=
  let '(messages, current_message) := st in
  if len current_message + len line + 1 <=? max_length
  then (messages, current_message ++ line ++ [nl])
  else
    let messages :=
      if truthy current_message
      then messages ++ [strip current_message] else messages in
    if len line >? max_length
    then fold_left (word_step max_length) (split_ws line) (messages, [])
    else (messages, line ++ [nl]).

(** The state after the outer loop went through [lines]. *)
Definition run_lines (max_length : Z) (lines : list str) (st : list str * str)
  : list str * str :=
  fold_left (line_step max_length) lines st.

(** What follows the outer loop: the last flush and the fallback. *)
Definition finish (st : list str * str) : list str :=
  let '(messages, current_message) := st in
  let messages :=
    if truthy current_message
    then messages ++ [strip current_message] else messages in
  match messages with [] => [[]] | _ => messages end.

Definition split_message (text : str) (max_length : Z) : list str :=
  finish (run_lines max_length (split_on nl text) ([], [])).

Record TextStatistics := mkStats {
  lines : Z;
  words : Z;
  characters : Z
}.

(* ================================================================== *)
(** ** Python values, exceptions and the outside world *)

Definition bytes := list Byte.byte.

Fixpoint str_eqb (a b : str) : bool :=
  match a, b with
  | [], [] => true
  | x :: a', y :: b' => (x =? y)%N && str_eqb a' b'
  | _, _ => false
  end.

(** [a in xs] for a list of strings. *)
Definition str_in (a : str) (xs : list str) : bool := existsb (str_eqb a) xs.

(** A raised exception: the timeout of [requests], or any other
    [Exception]; [msg] is what [str(e)] gives. *)
Inductive exn :=
| RequestTimeout (msg : str)
| Error (msg : str).

Definition exn_str (e : exn) : str :=
  match e with RequestTimeout msg => msg | Error msg => msg end.

Inductive result (A : Type) :=
| Ok (a : A)
| Raise (e : exn).
Arguments Ok {A} a.
Arguments Raise {A} e.

(** A decoded PIL image. *)
Record Image := mkImage {
  mode : str;
  size : Z * Z;
  format : option str;
  pixels : bytes
}.

(** The values the functions are called with. *)
Inductive pyval :=
| VNone
| VInt (n : Z)
| VStr (s : str)
| VBytes (b : bytes)
| VBytesIO (b : bytes)
| VImage (i : Image).

Definition isinstance_str (v : pyval) : bool :=
  match v with VStr _ => true | _ => false end.
Definition isinstance_bytes (v : pyval) : bool :=
  match v with VBytes _ => true | _ => false end.

(** The module [config], which is not part of the sources: its constants
    are parameters. *)
Record Config := mkConfig {
  OCR_API_KEY : str;
  OCR_LANGUAGES : str;
  OCR_CONFIG : str;
  OCR_DPI : Z;
  MAX_IMAGE_SIZE : Z * Z;
  MAX_MESSAGE_LENGTH : Z
}.

(** The request [requests.post] sends. *)
Record Request := mkRequest {
  url : str;
  apikey : str;
  language : str;
  isOverlayRequired : bool;
  detectOrientation : bool;
  scale : bool;
  OCREngine : Z;
  file_name : str;
  file_bytes : bytes;
  file_type : str;
  timeout : Z
}.

(** A JSON value that is not a string, by its Python type. *)
Inductive json_kind :=
| KNull
| KBool
| KInt
| KFloat
| KList
| KDict.

(** [type(v).__name__] *)
Definition type_name (k : json_kind) : str :=
  match k with
  | KNull => lit "NoneType"
  | KBool => lit "bool"
  | KInt => lit "int"
  | KFloat => lit "float"
  | KList => lit "list"
  | KDict => lit "dict"
  end.

(** The value under a key whose value is meant to be a string. *)
Inductive json_text :=
| JStr (s : str)
| JNonStr (k : json_kind).

(** The provider's JSON answer, read through [dict.get]: an absent key is
    [None].  [ParsedText] holds any JSON value; the other keys are read
    at the types the provider documents. *)
Record ParsedResult := mkParsed { ParsedText : option json_text }.

Record OcrResult := mkOcrResult {
  IsErroredOnProcessing : option bool;
  ErrorMessage : option (list str);
  ParsedResults : option (list ParsedResult)
}.

Record Response := mkResponse {
  ok : bool;
  status_code : Z;
  json : result OcrResult
}.

(** What the libraries answer. *)
Record World := mkWorld {
  (** [open(path, 'rb').read()] *)
  read_file : str -> result bytes;
  (** [requests.post(url, data=payload, files=files, timeout=30)] *)
  requests_post : Request -> result Response;
  (** [Image.open(fp)] *)
  Image_open : pyval -> result Image;
  (** [image.convert(mode)] *)
  Image_convert : Image -> str -> result Image;
  (** [pytesseract.image_to_string(image, lang=..., config=...)] *)
  image_to_string : Image -> str -> str -> result str;
  (** [pdf2image.convert_from_bytes(data, dpi=..., fmt=...)] *)
  convert_from_bytes : bytes -> Z -> str -> result (list Image);
  (** [from PIL import ImageEnhance, ImageOps] *)
  import_PIL_enhance : result unit;
  (** [ImageEnhance.Sharpness(image).enhance(factor)] *)
  Sharpness_enhance : Image -> QArith_base.Q -> result Image;
  (** [ImageEnhance.Contrast(image).enhance(factor)] *)
  Contrast_enhance : Image -> QArith_base.Q -> result Image;
  (** [ImageOps.grayscale(image)] *)
  ImageOps_grayscale : Image -> result Image
}.

(** What a call leaves behind. *)
Inductive event :=
| EvReadFile (path : str)
| EvPost (req : Request)
| EvLogError (msg : str).

(* ================================================================== *)
(** ** Computations: local state, trace, exceptions *)

Module Py.

(** [S] holds the local variables an [except] clause reads; the trace
    grows at its end.  A raised exception keeps both. *)
Definition M (S A : Type) : Type :=
  S -> list event -> result A * S * list event.

Definition ret {S A} (a : A) : M S A := fun s t => (Ok a, s, t).

Definition bind {S A B} (m : M S A) (k : A -> M S B) : M S B :=
  fun s t =>
    match m s t with
    | (Ok a, s', t') => k a s' t'
    | (Raise e, s', t') => (Raise e, s', t')
    end.

(** The answer of a library call. *)
Definition call {S A} (r : result A) : M S A := fun s t => (r, s, t).

Definition emit {S} (e : event) : M S unit := fun s t => (Ok tt, s, t ++ [e]).

Definition get {S} : M S S := fun s t => (Ok s, s, t).
Definition put {S} (s : S) : M S unit := fun _ t => (Ok tt, s, t).

(** [try: body except Exception as e: handler e] *)
Definition try_except {S A} (body : M S A) (handler : exn -> M S A) : M S A :=
  fun s t =>
    match body s t with
    | (Ok a, s', t') => (Ok a, s', t')
    | (Raise e, s', t') => handler e s' t'
    end.

(** Calling a function of the module: it has locals of its own. *)
Definition invoke {S A} (f : M unit A) : M S A :=
  fun s t => let '(r, _, t') := f tt t in (r, s, t').

(** [logger.error(msg)] *)
Definition log_error {S} (msg : str) : M S unit := emit (EvLogError msg).

End Py.
Import Py.

Declare Scope py_scope.
Delimit Scope py_scope with py.
Notation "x <- m ;; k" := (bind m (fun x => k))
  (at level 61, m at next level, right associativity) : py_scope.
Notation "m ;;; k" := (bind m (fun _ => k))
  (at level 61, right associativity) : py_scope.
Local Open Scope py_scope.

(** What a call returns. *)
Definition returned {A} (out : result A * unit * list event) : result A :=
  fst (fst out).

(* ================================================================== *)
(** ** Image OCR *)

Definition ocr_space_url : str := lit "https://api.ocr.space/parse/image".

Definition no_text_warning : str := lit "WARNING: No text detected in image".

(** [xs[0]] *)
Definition first_item {S A} (xs : list A) : M S A :=
  match xs with
  | x :: _ => ret x
  | [] => call (Raise (Error (lit "list index out of range")))
  end.

(** [v.strip()]: only a string has the method. *)
Definition strip_method {S} (v : json_text) : M S str :=
  match v with
  | JStr s => ret (strip s)
  | JNonStr k =>
      call (Raise (Error (lit "'" ++ type_name k
                          ++ lit "' object has no attribute 'strip'")))
  end.

(** The part of [extract_text_from_image_ocr_api] after [image_bytes] is
    bound. *)
Definition post_image (w : World) (cfg : Config) (image_bytes : bytes)
  : M unit str :=
  let req := {| url := ocr_space_url;
                apikey := OCR_API_KEY cfg;
                language := lit "ara";
                isOverlayRequired := false;
                detectOrientation := true;
                scale := true;
                OCREngine := 2;
                file_name := lit "image.jpg";
                file_bytes := image_bytes;
                file_type := lit "image/jpeg";
                timeout := 30 |} in
  emit (EvPost req) ;;;
  response <- call (requests_post w req) ;;
  if ok response then
    result <- call (json response) ;;
    if match IsErroredOnProcessing result with Some b => b | None => false end
    then
      error_msg <- first_item (match ErrorMessage result with
                          | Some msgs => msgs
                          | None => [lit "Unknown error"]
                          end) ;;
      ret (lit "ERROR: OCR processing failed: " ++ error_msg)
    else
      match ParsedResults result with
      | None | Some [] => ret no_text_warning
      | Some (parsed :: _) =>
          extracted_text <-
            strip_method (match ParsedText parsed with
                          | Some v => v
                          | None => JStr []
                          end) ;;
          if truthy extracted_text then ret extracted_text
          else ret no_text_warning
      end
  else
    ret (lit "ERROR: Server connection failed (" ++
         str_of_int (status_code response) ++ lit ")").

Definition extract_text_from_image_ocr_api (w : World) (cfg : Config)
  (image_data : pyval) : M unit str :=
  try_except
    (match image_data with
     | VStr path =>
         emit (EvReadFile path) ;;;
         image_bytes <- call (read_file w path) ;;
         post_image w cfg image_bytes
     | VBytes image_bytes => post_image w cfg image_bytes
     | _ => ret (lit "ERROR: Invalid image data type")
     end)
    (fun e =>
       match e with
       | RequestTimeout _ => ret (lit "ERROR: OCR API request timed out")
       | Error msg =>
           log_error (lit "OCR API error: " ++ msg) ;;;
           ret (lit "ERROR: " ++ msg)
       end).

(** The image argument of the local extractor. *)
Inductive ImageArg :=
| Decoded (image : Image)
| Raw (data : bytes).

(** ['=' * 50] *)
Definition rule : str := times 61%N 50.

Definition page_header (page_number : Z) : str :=
  rule ++ [nl] ++ lit "Page " ++ str_of_int page_number ++ [nl]
  ++ rule ++ [nl; nl].

Definition extract_text_from_image_tesseract (w : World) (cfg : Config)
  (image : ImageArg) (page_number : option Z) : M unit str :=
  try_except
    (image <- match image with
              | Raw data => call (Image_open w (VBytesIO data))
              | Decoded image => ret image
              end ;;
     image <- call (Image_convert w image (lit "RGB")) ;;
     raw <- call (image_to_string w image (OCR_LANGUAGES cfg) (OCR_CONFIG cfg)) ;;
     let text := strip raw in
     match page_number with
     | Some n => ret (page_header n ++ text)
     | None => ret text
     end)
    (fun e =>
       log_error (lit "Tesseract OCR error: " ++ exn_str e) ;;;
       ret (lit "ERROR: Image processing failed: " ++ exn_str e)).

(* ================================================================== *)
(** ** PDF OCR *)

(** The PDF argument: [bytes], or an object with a [read()] method. *)
Inductive PdfArg :=
| PdfBytes (data : bytes)
| PdfStream (read : result bytes).

(** ["\n\n" + "=" * 50 + "\n\n"] *)
Definition page_separator : str := [nl; nl] ++ rule ++ [nl; nl].

(** The loop [for i, image in enumerate(images, 1)], from page [i] on. *)
Fixpoint pages_loop (w : World) (cfg : Config) (total_pages : Z) (i : Z)
  (images : list Image) (all_text : list str) : M unit (list str) :=
  match images with
  | [] => ret all_text
  | image :: images' =>
      page_text <- invoke (extract_text_from_image_tesseract
                             w cfg (Decoded image) (Some i)) ;;
      let all_text := all_text ++ [page_text] in
      let all_text :=
        if i <? total_pages then all_text ++ [page_separator] else all_text in
      pages_loop w cfg total_pages (i + 1) images' all_text
  end.

Definition pdf_header (total_pages : Z) : str :=
  lit "Total Pages: " ++ str_of_int total_pages ++ [nl] ++ rule ++ [nl; nl].

Definition extract_text_from_pdf (w : World) (cfg : Config) (pdf_file : PdfArg)
  : M unit str :=
  try_except
    (images <- match pdf_file with
               | PdfBytes data =>
                   call (convert_from_bytes w data (OCR_DPI cfg) (lit "png"))
               | PdfStream read =>
                   data <- call read ;;
                   call (convert_from_bytes w data (OCR_DPI cfg) (lit "png"))
               end ;;
     let total_pages := Z.of_nat (List.length images) in
     all_text <- pages_loop w cfg total_pages 1 images [] ;;
     ret (pdf_header total_pages ++ join [nl] all_text))
    (fun e =>
       log_error (lit "PDF OCR error: " ++ exn_str e) ;;;
       ret (lit "ERROR: PDF processing failed: " ++ exn_str e)).

(* ================================================================== *)
(** ** Image validation and enhancement *)

Definition allowed_formats : list str :=
  [lit "JPEG"; lit "PNG"; lit "BMP"; lit "TIFF"].

(** [Image.open(io.BytesIO(image_data) if isinstance(image_data, bytes)
    else image_data)] *)
Definition open_image_data (w : World) (image_data : pyval) : result Image :=
  Image_open w (match image_data with
                | VBytes b => VBytesIO b
                | v => v
                end).

Definition validate_image (w : World) (cfg : Config) (image_data : pyval)
  : M unit (bool * str) :=
  try_except
    (image <- call (open_image_data w image_data) ;;
     if (fst (size image) >? fst (MAX_IMAGE_SIZE cfg))
        || (snd (size image) >? snd (MAX_IMAGE_SIZE cfg))
     then ret (false, lit "Image size exceeds allowed limits")
     else if negb (match format image with
                   | Some f => str_in f allowed_formats
                   | None => false
                   end)
     then ret (false, lit "Unsupported image format")
     else ret (true, lit "OK"))
    (fun e => ret (false, exn_str e)).

(** The local variable [image] is the state: each step rebinds it, and
    the [except] clause returns whatever it is bound to by then. *)
Definition rebind (step : Image -> result Image) : M Image unit :=
  image <- get ;; image' <- call (step image) ;; put image'.

Definition enhance_body (w : World) : M Image Image :=
  try_except
    (call (import_PIL_enhance w) ;;;
     image <- get ;;
     (if negb (str_eqb (mode image) (lit "RGB"))
      then rebind (fun image => Image_convert w image (lit "RGB"))
      else ret tt) ;;;
     rebind (fun image => Sharpness_enhance w image (QArith_base.Qmake 2 1)) ;;;
     rebind (fun image => Contrast_enhance w image (QArith_base.Qmake 3 2)) ;;;
     rebind (ImageOps_grayscale w) ;;;
     get)
    (fun e =>
       log_error (lit "Image enhancement error: " ++ exn_str e) ;;;
       get).

(** The function, called with [image]: its frame starts with the
    parameter. *)
Definition enhance_image_for_ocr (w : World) (image : Image) : M unit Image :=
  fun _ t => let '(r, _, t') := enhance_body w image t in (r, tt, t').

(** [get_text_statistics] on a [str]: the dictionary, or [None] from the
    [except] clause. *)
Definition get_text_statistics (text : str) : M unit (option TextStatistics) :=
  try_except
    (ret (Some {| lines := Z.of_nat (List.length (split_on nl text));
                  words := Z.of_nat (List.length (split_ws text));
                  characters := len text |}))
    (fun e =>
       log_error (lit "Text statistics error: " ++ exn_str e) ;;;
       ret None).

(** [split_message(text)] with the default [max_length]. *)
Definition split_message_default (cfg : Config) (text : str) : list str :=
  split_message text (MAX_MESSAGE_LENGTH cfg).

(* ================================================================== *)
(** ** Statements about the extractors *)

(** The local OCR of [image] goes through and reads [raw]. *)
Definition ocr_reads (w : World) (cfg : Config) (image : ImageArg) (raw : str)
  : Prop :=
  exists img rgb,
    match image with
    | Decoded i => Ok i
    | Raw data => Image_open w (VBytesIO data)
    end = Ok img
    /\ Image_convert w img (lit "RGB") = Ok rgb
    /\ image_to_string w rgb (OCR_LANGUAGES cfg) (OCR_CONFIG cfg) = Ok raw.

(** Rasterization: reading the stream if there is one, then
    [convert_from_bytes]. *)
Definition rasterize (w : World) (cfg : Config) (pdf_file : PdfArg)
  : result (list Image) :=
  match pdf_file with
  | PdfBytes data => convert_from_bytes w data (OCR_DPI cfg) (lit "png")
  | PdfStream (Ok data) => convert_from_bytes w data (OCR_DPI cfg) (lit "png")
  | PdfStream (Raise e) => Raise e
  end.

(** What the OCR of one page image gives. *)
Definition page_outcome (w : World) (cfg : Config) (image : Image)
  : result str :=
  match Image_convert w image (lit "RGB") with
  | Ok rgb => image_to_string w rgb (OCR_LANGUAGES cfg) (OCR_CONFIG cfg)
  | Raise e => Raise e
  end.

(** The text standing for page [i] in the document's output. *)
Definition page_text (w : World) (cfg : Config) (i : Z) (image : Image) : str :=
  match page_outcome w cfg image with
  | Ok raw => page_header i ++ strip raw
  | Raise e => lit "ERROR: Image processing failed: " ++ exn_str e
  end.

Fixpoint pages_text (w : World) (cfg : Config) (i : Z) (images : list Image)
  : list str :=
  match images with
  | [] => []
  | image :: images' => page_text w cfg i image :: pages_text w cfg (i + 1) images'
  end.

(** What the loop over the pages appends, from page [i] on. *)
Fixpoint loop_texts (w : World) (cfg : Config) (total_pages i : Z)
  (images : list Image) : list str :=
  match images with
  | [] => []
  | image :: images' =>
      page_text w cfg i image
      :: (if i <? total_pages then [page_separator] else [])
      ++ loop_texts w cfg total_pages (i + 1) images'
  end.

(** The page separator between, not after, the items. *)
Fixpoint with_separators (xs : list str) : list str :=
  match xs with
  | [] => []
  | [x] => [x]
  | x :: xs' => x :: page_separator :: with_separators xs'
  end.

(** Some step of the document fails: rasterization, or the extraction of
    a page. *)
Definition pdf_failure (w : World) (cfg : Config) (pdf_file : PdfArg) : Prop :=
  (exists e, rasterize w cfg pdf_file = Raise e)
  \/ (exists images,
        rasterize w cfg pdf_file = Ok images
        /\ Exists (fun image => exists e, page_outcome w cfg image = Raise e)
                  images).

(** All or nothing: a failing document gives the document's error string
    alone. *)
Definition all_or_nothing (w : World) (cfg : Config) (pdf_file : PdfArg)
  : Prop :=
  pdf_failure w cfg pdf_file ->
  exists msg,
    returned (extract_text_from_pdf w cfg pdf_file tt [])
    = Ok (lit "ERROR: PDF processing failed: " ++ msg).

(** *** Sample worlds *)

Definition unavailable {A} : result A := Raise (Error (lit "unavailable")).

(** No library answers. *)
Definition silent_world : World :=
  {| read_file := fun _ => unavailable;
     requests_post := fun _ => unavailable;
     Image_open := fun _ => unavailable;
     Image_convert := fun _ _ => unavailable;
     image_to_string := fun _ _ _ => unavailable;
     convert_from_bytes := fun _ _ _ => unavailable;
     import_PIL_enhance := unavailable;
     Sharpness_enhance := fun _ _ => unavailable;
     Contrast_enhance := fun _ _ => unavailable;
     ImageOps_grayscale := fun _ => unavailable |}.

Definition sample_config : Config :=
  {| OCR_API_KEY := lit "key";
     OCR_LANGUAGES := lit "ara+eng";
     OCR_CONFIG := lit "--psm 6";
     OCR_DPI := 300;
     MAX_IMAGE_SIZE := (4096, 4096);
     MAX_MESSAGE_LENGTH := 4096 |}.

Definition blank (m : str) (width height : Z) (fmt : option str) : Image :=
  {| mode := m; size := (width, height); format := fmt; pixels := [] |}.

(** A two-page document: the first page reads [" hello\n"], the OCR of
    the second raises [boom]. *)
Definition page_one : Image := blank (lit "RGB") 1 1 None.
Definition page_two : Image := blank (lit "RGB") 2 2 None.

Definition second_page_fails : World :=
  {| read_file := fun _ => unavailable;
     requests_post := fun _ => unavailable;
     Image_open := fun _ => unavailable;
     Image_convert := fun image _ => Ok image;
     image_to_string := fun image _ _ =>
       if fst (size image) =? 1 then Ok ([sp] ++ lit "hello" ++ [nl])
       else Raise (Error (lit "boom"));
     convert_from_bytes := fun _ _ _ => Ok [page_one; page_two];
     import_PIL_enhance := unavailable;
     Sharpness_enhance := fun _ _ => unavailable;
     Contrast_enhance := fun _ _ => unavailable;
     ImageOps_grayscale := fun _ => unavailable |}.

(** [Image.open] decodes every input to one fixed image. *)
Definition opens_as (image : Image) : World :=
  {| read_file := fun _ => unavailable;
     requests_post := fun _ => unavailable;
     Image_open := fun _ => Ok image;
     Image_convert := fun image _ => Ok image;
     image_to_string := fun _ _ _ => Ok ([sp] ++ lit "text" ++ [nl]);
     convert_from_bytes := fun _ _ _ => unavailable;
     import_PIL_enhance := unavailable;
     Sharpness_enhance := fun _ _ => unavailable;
     Contrast_enhance := fun _ _ => unavailable;
     ImageOps_grayscale := fun _ => unavailable |}.

(** The conversion to RGB goes through, the sharpening runs out of
    memory. *)
Definition sharpening_fails : World :=
  {| read_file := fun _ => unavailable;
     requests_post := fun _ => unavailable;
     Image_open := fun _ => unavailable;
     Image_convert := fun image m =>
       Ok {| mode := m; size := size image; format := None;
             pixels := pixels image |};
     image_to_string := fun _ _ _ => unavailable;
     convert_from_bytes := fun _ _ _ => unavailable;
     import_PIL_enhance := Ok tt;
     Sharpness_enhance := fun _ _ => Raise (Error (lit "out of memory"));
     Contrast_enhance := fun _ _ => unavailable;
     ImageOps_grayscale := fun _ => unavailable |}.

Definition gray_scan : Image := blank (lit "L") 640 480 (Some (lit "PNG")).

(* ================================================================== *)
(** ** Notions used to state the splitter's invariants *)

(** A string that is empty or ends in white space: appending to it
    neither joins nor splits a word. *)
Definition ends_ws (s : str) : Prop :=
  s = [] \/ exists a c, s = a ++ [c] /\ isspace c = true.

(** The tokens a loop state holds: those already flushed, then those of
    the accumulator. *)
Definition st_tokens (st : list str * str) : list str :=
  flat_map split_ws (fst st) ++ split_ws (snd st).

Definition st_ends_ws (st : list str * str) : Prop := ends_ws (snd st).

(** A chunk within the limit, or a single word that alone exceeds it. *)
Definition chunk_ok (L : Z) (c : str) : Prop :=
  len c <= L \/ (is_word c /\ L < len c).

Definition st_ok (L : Z) (st : list str * str) : Prop :=
  Forall (chunk_ok L) (fst st) /\ chunk_ok L (strip (snd st)).

(** [messages] only grows, at its end. *)
Definition extends (m m' : list str) : Prop := exists extra, m' = m ++ extra.

(** [messages] after the flush of a non-empty accumulator. *)
Definition flushed (st : list str * str) : list str :=
  if truthy (snd st) then fst st ++ [strip (snd st)] else fst st.

(** Once the accumulator holds a word, the next chunk appended to
    [messages] is not empty, and there is such a chunk. *)
Definition next_nonempty (m m' : list str) : Prop :=
  exists c rest, m' = m ++ c :: rest /\ c <> [].

(* ================================================================== *)
(** ** Statements about the splitter *)

(** The word-packing branch is reached at [line], after the lines [pre],
    and the first word [w] of the over-long [line] has length at least
    [L]. *)
Definition wordpack_entered (T : str) (L : Z)
  (pre : list str) (line : str) (post : list str) (w : str) : Prop :=
  split_on nl T = pre ++ line :: post
  /\ L < len line
  /\ (exists ws, split_ws line = w :: ws)
  /\ L <= len w.

(** The same, with an empty accumulator on entry. *)
Definition wordpack_entered_empty (T : str) (L : Z)
  (pre : list str) (line : str) (post : list str) (w : str) : Prop :=
  wordpack_entered T L pre line post w
  /\ snd (run_lines L pre ([], [])) = [].

(** A list that begins with the empty string, followed by non-empty
    chunks. *)
Definition begins_empty_then_nonempty (chunks : list str) : Prop :=
  exists rest,
    chunks = [] :: rest /\ rest <> [] /\ Forall (fun c => c <> []) rest.

(** ["ab\n    \nabcd"]: a short line, a line of four spaces, a long word. *)
Definition text_blank_line : str :=
  lit "ab" ++ [nl] ++ lit "    " ++ [nl] ++ lit "abcd".

(** ["ab\ncd"]: two lines, one word each. *)
Definition text_two_words : str := lit "ab" ++ [nl] ++ lit "cd".

(* ================================================================== *)
(** ** Further statements about the module *)

(** The request the remote extractor posts for [image_bytes]. *)
Definition ocr_request (cfg : Config) (image_bytes : bytes) : Request :=
  {| url := ocr_space_url;
     apikey := OCR_API_KEY cfg;
     language := lit "ara";
     isOverlayRequired := false;
     detectOrientation := true;
     scale := true;
     OCREngine := 2;
     file_name := lit "image.jpg";
     file_bytes := image_bytes;
     file_type := lit "image/jpeg";
     timeout := 30 |}.

(** [parsed_results[0].get('ParsedText', '')], or [""] without a first
    parsed result. *)
Definition first_parsed_text (result : OcrResult) : json_text :=
  match ParsedResults result with
  | Some (parsed :: _) =>
      match ParsedText parsed with Some v => v | None => JStr [] end
  | _ => JStr []
  end.

(** The provider does not report a processing error. *)
Definition not_errored (result : OcrResult) : Prop :=
  IsErroredOnProcessing result = None
  \/ IsErroredOnProcessing result = Some false.

(** The local OCR of [image] raises [e], at the decoding, at the
    conversion to RGB or in the engine. *)
Definition ocr_fails (w : World) (cfg : Config) (image : ImageArg) (e : exn)
  : Prop :=
  match match image with
        | Decoded i => Ok i
        | Raw data => Image_open w (VBytesIO data)
        end with
  | Raise e' => e' = e
  | Ok img =>
      match Image_convert w img (lit "RGB") with
      | Raise e' => e' = e
      | Ok rgb =>
          image_to_string w rgb (OCR_LANGUAGES cfg) (OCR_CONFIG cfg) = Raise e
      end
  end.

(** What the extraction of one page logs. *)
Definition page_log (w : World) (cfg : Config) (image : Image) : list event :=
  match page_outcome w cfg image with
  | Ok _ => []
  | Raise e => [EvLogError (lit "Tesseract OCR error: " ++ exn_str e)]
  end.

(** The image the enhancement starts from: the RGB conversion of a
    non-RGB input, the input itself otherwise. *)
Definition enhance_start (w : World) (image : Image) : result Image :=
  if str_eqb (mode image) (lit "RGB") then Ok image
  else Image_convert w image (lit "RGB").

Definition count_newlines (s : str) : Z :=
  Z.of_nat (List.length (filter (fun c => (c =? nl)%N) s)).

(** The [words] entry of the statistics of a text. *)
Definition words_of (text : str) : Z :=
  match returned (get_text_statistics text tt []) with
  | Ok (Some r) => words r
  | _ => 0
  end.

(** The [words] entries of the chunks, added up. *)
Definition total_words (chunks : list str) : Z :=
  fold_right (fun c n => words_of c + n) 0 chunks.

(** The format of the image is not among the allowed ones. *)
Definition format_refused (image : Image) : Prop :=
  match format image with
  | Some f => ~ In f [lit "JPEG"; lit "PNG"; lit "BMP"; lit "TIFF"]
  | None => True
  end.

Definition enhancement_log (e : exn) : event :=
  EvLogError (lit "Image enhancement error: " ++ exn_str e).

(** *** More sample worlds *)

(** The file system and the web API answer as given; the imaging
    libraries do not answer. *)
Definition answering (file : result bytes) (answer : result Response) : World :=
  {| read_file := fun _ => file;
     requests_post := fun _ => answer;
     Image_open := fun _ => unavailable;
     Image_convert := fun _ _ => unavailable;
     image_to_string := fun _ _ _ => unavailable;
     convert_from_bytes := fun _ _ _ => unavailable;
     import_PIL_enhance := unavailable;
     Sharpness_enhance := fun _ _ => unavailable;
     Contrast_enhance := fun _ _ => unavailable;
     ImageOps_grayscale := fun _ => unavailable |}.

Definition answer_of (r : OcrResult) : result Response :=
  Ok {| ok := true; status_code := 200; json := Ok r |}.

(** Every imaging step goes through; each one leaves its mark in the
    mode of the image. *)
Definition marking (tag : str) (image : Image) : result Image :=
  Ok {| mode := tag; size := size image; format := None;
        pixels := pixels image |}.

Definition enhancing : World :=
  {| read_file := fun _ => unavailable;
     requests_post := fun _ => unavailable;
     Image_open := fun _ => unavailable;
     Image_convert := fun image m => marking m image;
     image_to_string := fun _ _ _ => unavailable;
     convert_from_bytes := fun _ _ _ => unavailable;
     import_PIL_enhance := Ok tt;
     Sharpness_enhance := fun image _ => marking (lit "sharp") image;
     Contrast_enhance := fun image _ => marking (lit "contrast") image;
     ImageOps_grayscale := fun image => marking (lit "L") image |}.

(** The rasterizer gives the pages it is built with; every page reads
    ["text"]. *)
Definition rasterizing (pages : list Image) : World :=
  {| read_file := fun _ => unavailable;
     requests_post := fun _ => unavailable;
     Image_open := fun _ => unavailable;
     Image_convert := fun image _ => Ok image;
     image_to_string := fun _ _ _ => Ok (lit "text");
     convert_from_bytes := fun _ _ _ => Ok pages;
     import_PIL_enhance := unavailable;
     Sharpness_enhance := fun _ _ => unavailable;
     Contrast_enhance := fun _ _ => unavailable;
     ImageOps_grayscale := fun _ => unavailable |}.

(* ================================================================== *)
(** ** Facts about the string primitives *)

Section StringFacts.

Lemma isspace_nl : isspace nl = true.
Proof. reflexivity. Qed.

Lemma isspace_sp : isspace sp = true.
Proof. reflexivity. Qed.

Lemma len_app (a b : str) : len (a ++ b) = len a + len b.
Proof. unfold len. rewrite length_app. lia. Qed.

Lemma len_nonneg (a : str) : 0 <= len a.
Proof. unfold len. lia. Qed.

Lemma len_single (c : char) : len [c] = 1.
Proof. reflexivity. Qed.

(** *** [drop_while] and the strips *)

Lemma drop_while_length p (s : str) :
  (List.length (drop_while p s) <= List.length s)%nat.
Proof.
  induction s as [|c s IH]; simpl; [lia|].
  destruct (p c); simpl; lia.
Qed.

Lemma drop_while_none p (s : str) :
  match s with [] => True | c :: _ => p c = false end ->
  drop_while p s = s.
Proof. destruct s as [|c s]; simpl; [reflexivity|]. now intros ->. Qed.

Lemma drop_while_snoc p (s : str) (c : char) :
  p c = true ->
  drop_while p (s ++ [c]) =
  if forallb p s then [] else drop_while p s ++ [c].
Proof.
  intros Hc. induction s as [|d s IH]; simpl.
  - now rewrite Hc.
  - destruct (p d); simpl; [exact IH | reflexivity].
Qed.

Lemma rstrip_snoc (s : str) (c : char) :
  isspace c = true -> rstrip (s ++ [c]) = rstrip s.
Proof.
  intros Hc. unfold rstrip. rewrite rev_app_distr. simpl. now rewrite Hc.
Qed.

Lemma rstrip_length (s : str) : (List.length (rstrip s) <= List.length s)%nat.
Proof.
  unfold rstrip. rewrite length_rev.
  etransitivity; [apply drop_while_length|]. now rewrite length_rev.
Qed.

Lemma len_strip (s : str) : len (strip s) <= len s.
Proof.
  unfold strip, lstrip, len.
  pose proof (rstrip_length (drop_while isspace s)).
  pose proof (drop_while_length isspace s). lia.
Qed.

(** Stripping a string that ends in white space removes at least that
    character. *)
Lemma len_strip_snoc (s : str) (c : char) :
  isspace c = true -> len (strip (s ++ [c])) <= len s.
Proof.
  intros Hc. unfold strip, lstrip. rewrite drop_while_snoc by exact Hc.
  destruct (forallb isspace s).
  - cbn. apply len_nonneg.
  - rewrite rstrip_snoc by exact Hc. unfold len.
    pose proof (rstrip_length (drop_while isspace s)).
    pose proof (drop_while_length isspace s). lia.
Qed.

Lemma strip_word_space (w : str) (c : char) :
  is_word w -> isspace c = true -> strip (w ++ [c]) = w.
Proof.
  intros [Hne Hw] Hc. unfold strip, lstrip.
  rewrite drop_while_none.
  - rewrite rstrip_snoc by exact Hc. unfold rstrip.
    rewrite drop_while_none; [apply rev_involutive|].
    destruct (rev w) as [|d r] eqn:E; [exact I|].
    rewrite Forall_forall in Hw. apply Hw.
    apply in_rev. rewrite E. now left.
  - destruct w as [|d w]; [congruence|]. simpl. now inversion Hw.
Qed.

Lemma has_nonspace_drop_while (s : str) :
  has_nonspace (drop_while isspace s) = has_nonspace s.
Proof.
  induction s as [|c s IH]; simpl; [reflexivity|].
  destruct (isspace c) eqn:E; simpl; [exact IH|]. now rewrite E.
Qed.

Lemma has_nonspace_rev (s : str) : has_nonspace (rev s) = has_nonspace s.
Proof.
  unfold has_nonspace.
  destruct (existsb _ s) eqn:E.
  - apply existsb_exists in E as (c & Hin & Hc).
    apply existsb_exists. exists c. split; [now apply in_rev in Hin|exact Hc].
  - destruct (existsb _ (rev s)) eqn:E'; [|reflexivity].
    apply existsb_exists in E' as (c & Hin & Hc).
    apply in_rev in Hin.
    assert (existsb (fun c => negb (isspace c)) s = true) as H
      by (apply existsb_exists; eauto).
    congruence.
Qed.

Lemma has_nonspace_strip (s : str) : has_nonspace (strip s) = has_nonspace s.
Proof.
  unfold strip, rstrip, lstrip.
  now rewrite has_nonspace_rev, has_nonspace_drop_while, has_nonspace_rev,
    has_nonspace_drop_while.
Qed.

Lemma has_nonspace_app (a b : str) :
  has_nonspace (a ++ b) = has_nonspace a || has_nonspace b.
Proof. apply existsb_app. Qed.

Lemma strip_nonempty (s : str) : has_nonspace s = true -> strip s <> [].
Proof.
  intros H E. rewrite <- has_nonspace_strip, E in H. discriminate.
Qed.

Lemma has_nonspace_truthy (s : str) : has_nonspace s = true -> truthy s = true.
Proof. destruct s; [discriminate | reflexivity]. Qed.

Lemma is_word_has_nonspace (w : str) : is_word w -> has_nonspace w = true.
Proof.
  intros [Hne Hw]. destruct w as [|c w]; [congruence|].
  inversion Hw as [|? ? Hc _]. simpl. now rewrite Hc.
Qed.

End StringFacts.

(* ================================================================== *)
(** ** Tokens: what [split()] sees *)

Section Tokens.

Lemma scan_words_app_space (a b w : str) (c : char) :
  isspace c = true ->
  scan_words w (a ++ c :: b) = scan_words w a ++ split_ws b.
Proof.
  intros Hc. revert w. induction a as [|d a IH]; intros w; simpl.
  - rewrite Hc. destruct w; reflexivity.
  - destruct (isspace d).
    + destruct w; rewrite IH; reflexivity.
    + apply IH.
Qed.

Lemma split_ws_app_space (a b : str) (c : char) :
  isspace c = true -> split_ws (a ++ c :: b) = split_ws a ++ split_ws b.
Proof. intros Hc. now apply scan_words_app_space. Qed.

Lemma split_ws_snoc_space (a : str) (c : char) :
  isspace c = true -> split_ws (a ++ [c]) = split_ws a.
Proof.
  intros Hc. rewrite split_ws_app_space by exact Hc. cbn. apply app_nil_r.
Qed.

Lemma ends_ws_snoc (a : str) (c : char) : isspace c = true -> ends_ws (a ++ [c]).
Proof. intros Hc. right. now exists a, c. Qed.

Lemma split_ws_app (a b : str) :
  ends_ws a -> split_ws (a ++ b) = split_ws a ++ split_ws b.
Proof.
  intros [-> | (a' & c & -> & Hc)]; [reflexivity|].
  rewrite <- app_assoc. simpl.
  now rewrite split_ws_app_space, split_ws_snoc_space.
Qed.

Lemma split_ws_spaces (a t : str) :
  Forall (fun c => isspace c = true) t -> split_ws (a ++ t) = split_ws a.
Proof.
  intros Ht. revert a. induction Ht as [|c t Hc _ IH]; intros a.
  - now rewrite app_nil_r.
  - change (a ++ c :: t) with (a ++ [c] ++ t). rewrite app_assoc, IH.
    now apply split_ws_snoc_space.
Qed.

Lemma drop_while_split p (s : str) :
  exists pre, s = pre ++ drop_while p s /\ Forall (fun c => p c = true) pre.
Proof.
  induction s as [|c s (pre & E & F)]; simpl.
  - now exists [].
  - destruct (p c) eqn:Hc.
    + exists (c :: pre). split; [simpl; congruence | now constructor].
    + now exists [].
Qed.

Lemma split_ws_lstrip (s : str) : split_ws (lstrip s) = split_ws s.
Proof.
  unfold lstrip. induction s as [|c s IH]; simpl; [reflexivity|].
  destruct (isspace c) eqn:Hc; [|reflexivity].
  rewrite IH. unfold split_ws. simpl. now rewrite Hc.
Qed.

Lemma split_ws_rstrip (s : str) : split_ws (rstrip s) = split_ws s.
Proof.
  unfold rstrip.
  destruct (drop_while_split isspace (rev s)) as (pre & E & F).
  assert (s = rev (drop_while isspace (rev s)) ++ rev pre) as Hs.
  { rewrite <- rev_app_distr, <- E. symmetry. apply rev_involutive. }
  rewrite Hs at 2. symmetry. apply split_ws_spaces.
  apply Forall_forall. intros c Hin. apply in_rev in Hin.
  rewrite Forall_forall in F. now apply F.
Qed.

Lemma split_ws_strip (s : str) : split_ws (strip s) = split_ws s.
Proof. unfold strip. now rewrite split_ws_rstrip, split_ws_lstrip. Qed.

Lemma drop_while_head p (s : str) :
  match drop_while p s with [] => True | c :: _ => p c = false end.
Proof.
  induction s as [|c s IH]; simpl; [exact I|].
  destruct (p c) eqn:Hc; [exact IH | exact Hc].
Qed.

Lemma drop_while_idem p (s : str) :
  drop_while p (drop_while p s) = drop_while p s.
Proof. apply drop_while_none, drop_while_head. Qed.

(** A stripped string has nothing left to strip. *)
Lemma strip_idem (s : str) : strip (strip s) = strip s.
Proof.
  unfold strip at 1. set (r := strip s).
  assert (lstrip r = r) as ->.
  { unfold lstrip. apply drop_while_none.
    destruct r as [|c r'] eqn:Er; [exact I|].
    unfold r, strip, rstrip in Er.
    destruct (drop_while_split isspace (rev (lstrip s))) as (pre & E & _).
    apply (f_equal (@rev char)) in E.
    rewrite rev_involutive, rev_app_distr, Er in E.
    pose proof (drop_while_head isspace s) as Hh.
    unfold lstrip in E. rewrite E in Hh. exact Hh. }
  unfold r, strip, rstrip.
  now rewrite rev_involutive, drop_while_idem.
Qed.

Lemma scan_words_nonspace (w s : str) :
  Forall (fun c => isspace c = false) s ->
  scan_words w s = match rev w ++ s with [] => [] | x => [x] end.
Proof.
  intros Hs. revert w. induction Hs as [|c s Hc _ IH]; intros w; simpl.
  - rewrite app_nil_r. destruct w as [|d w]; [reflexivity|].
    simpl. destruct (rev w ++ [d]) eqn:E; [|reflexivity].
    now apply app_eq_nil in E as [_ ?].
  - rewrite Hc, IH. simpl. now rewrite <- app_assoc.
Qed.

Lemma split_ws_word (w : str) : is_word w -> split_ws w = [w].
Proof.
  intros [Hne Hw]. unfold split_ws. rewrite scan_words_nonspace by exact Hw.
  simpl. destruct w; [congruence | reflexivity].
Qed.

Lemma scan_words_are_words (w s : str) :
  Forall (fun c => isspace c = false) w ->
  Forall is_word (scan_words w s).
Proof.
  assert (forall v : str, v <> [] -> Forall (fun c => isspace c = false) v ->
                          is_word (rev v)) as Hrev.
  { intros v Hne Hv. split.
    - intros E. apply Hne. rewrite <- (rev_involutive v), E. reflexivity.
    - apply Forall_forall. intros c Hin. apply in_rev in Hin.
      rewrite Forall_forall in Hv. now apply Hv. }
  revert w. induction s as [|c s IH]; intros w Hw; simpl.
  - destruct w; [constructor|]. constructor; [|constructor].
    now apply Hrev.
  - destruct (isspace c) eqn:Hc.
    + destruct w; [now apply IH|].
      constructor; [now apply Hrev | now apply IH].
    + apply IH. now constructor.
Qed.

Lemma split_ws_are_words (s : str) : Forall is_word (split_ws s).
Proof. apply scan_words_are_words. constructor. Qed.

(** The words of a string, put end to end, are its non-space characters. *)
Lemma concat_scan_words (w s : str) :
  List.concat (scan_words w s) =
  rev w ++ filter (fun c => negb (isspace c)) s.
Proof.
  revert w. induction s as [|c s IH]; intros w; simpl.
  - destruct w; simpl; [reflexivity|]. now rewrite !app_nil_r.
  - destruct (isspace c) eqn:Hc; simpl.
    + destruct w; simpl; now rewrite IH.
    + rewrite IH. simpl. now rewrite <- app_assoc.
Qed.

Lemma concat_split_ws (s : str) :
  List.concat (split_ws s) = filter (fun c => negb (isspace c)) s.
Proof. apply concat_scan_words. Qed.

Lemma split_on_nonempty (sep : char) (s : str) : split_on sep s <> [].
Proof.
  destruct s as [|c s]; simpl; [discriminate|].
  destruct (c =? sep)%N; [discriminate|].
  destruct (split_on sep s); discriminate.
Qed.

Lemma join_cons (sep x y : str) (ys : list str) :
  join sep (x :: y :: ys) = x ++ sep ++ join sep (y :: ys).
Proof. reflexivity. Qed.

Lemma join_split_on (sep : char) (s : str) : join [sep] (split_on sep s) = s.
Proof.
  induction s as [|c s IH]; simpl; [reflexivity|].
  pose proof (split_on_nonempty sep s) as Hne.
  destruct (split_on sep s) as [|l ls]; [congruence|].
  destruct (N.eqb_spec c sep) as [->|Hc].
  - rewrite join_cons, IH. reflexivity.
  - destruct ls as [|l' ls].
    + simpl in *. congruence.
    + rewrite join_cons in *. rewrite <- IH. reflexivity.
Qed.

Lemma split_ws_join_nl (xs : list str) :
  split_ws (join [nl] xs) = flat_map split_ws xs.
Proof.
  induction xs as [|x xs IH]; [reflexivity|].
  destruct xs as [|y ys].
  - simpl. now rewrite app_nil_r.
  - change (join [nl] (x :: y :: ys)) with (x ++ nl :: join [nl] (y :: ys)).
    rewrite split_ws_app_space by apply isspace_nl.
    now rewrite IH.
Qed.

Lemma split_on_tokens (s : str) :
  flat_map split_ws (split_on nl s) = split_ws s.
Proof. now rewrite <- split_ws_join_nl, join_split_on. Qed.

End Tokens.

(* ================================================================== *)
(** ** The message splitter: loop invariants *)

Section SplitterInvariants.

Variable L : Z.

(** *** Tokens are kept, in order *)

Lemma flat_map_snoc (m : list str) (x : str) :
  flat_map split_ws (m ++ [x]) = flat_map split_ws m ++ split_ws x.
Proof. rewrite flat_map_app. simpl. now rewrite app_nil_r. Qed.

Lemma word_step_tokens st word :
  st_ends_ws st -> is_word word ->
  st_tokens (word_step L st word) = st_tokens st ++ [word]
  /\ st_ends_ws (word_step L st word).
Proof.
  destruct st as [m temp]. unfold st_ends_ws, st_tokens, word_step. simpl.
  intros Hend Hw.
  destruct (len temp + len word + 1 <=? L); simpl.
  - split.
    + rewrite split_ws_app by exact Hend.
      rewrite split_ws_snoc_space by apply isspace_sp.
      rewrite (split_ws_word word) by exact Hw. now rewrite app_assoc.
    + rewrite app_assoc. apply ends_ws_snoc, isspace_sp.
  - split.
    + rewrite flat_map_snoc, split_ws_strip.
      rewrite split_ws_snoc_space by apply isspace_sp.
      now rewrite (split_ws_word word) by exact Hw.
    + apply ends_ws_snoc, isspace_sp.
Qed.

Lemma word_loop_tokens ws : forall st,
  st_ends_ws st -> Forall is_word ws ->
  st_tokens (fold_left (word_step L) ws st) = st_tokens st ++ ws
  /\ st_ends_ws (fold_left (word_step L) ws st).
Proof.
  induction ws as [|w ws IH]; intros st Hend Hws; simpl.
  - now rewrite app_nil_r.
  - inversion Hws as [|? ? Hw Hws']; subst.
    destruct (word_step_tokens st w Hend Hw) as [E Hend'].
    destruct (IH _ Hend' Hws') as [E' Hend''].
    split; [|exact Hend''].
    rewrite E', E, <- app_assoc. reflexivity.
Qed.

Lemma flush_tokens (m : list str) (cur : str) :
  flat_map split_ws (if truthy cur then m ++ [strip cur] else m)
  = flat_map split_ws m ++ split_ws cur.
Proof.
  destruct cur as [|c cur]; simpl truthy; cbv iota.
  - cbn. now rewrite app_nil_r.
  - now rewrite flat_map_snoc, split_ws_strip.
Qed.

Lemma line_step_tokens st line :
  st_ends_ws st ->
  st_tokens (line_step L st line) = st_tokens st ++ split_ws line
  /\ st_ends_ws (line_step L st line).
Proof.
  destruct st as [m cur]. unfold st_ends_ws, line_step. simpl.
  intros Hend.
  destruct (len cur + len line + 1 <=? L).
  - unfold st_tokens; simpl. split.
    + rewrite split_ws_app by exact Hend.
      rewrite split_ws_snoc_space by apply isspace_nl.
      now rewrite app_assoc.
    + rewrite app_assoc. apply ends_ws_snoc, isspace_nl.
  - destruct (len line >? L).
    + destruct (word_loop_tokens (split_ws line)
                  (if truthy cur then m ++ [strip cur] else m, []))
        as [E Hend'].
      * now left.
      * apply split_ws_are_words.
      * split; [|exact Hend'].
        rewrite E. unfold st_tokens; simpl.
        now rewrite flush_tokens, app_nil_r.
    + unfold st_tokens; simpl. split.
      * rewrite flush_tokens.
        now rewrite split_ws_snoc_space by apply isspace_nl.
      * apply ends_ws_snoc, isspace_nl.
Qed.

Lemma run_lines_tokens ls : forall st,
  st_ends_ws st ->
  st_tokens (run_lines L ls st) = st_tokens st ++ flat_map split_ws ls.
Proof.
  unfold run_lines.
  induction ls as [|l ls IH]; intros st Hend; simpl.
  - now rewrite app_nil_r.
  - destruct (line_step_tokens st l Hend) as [E Hend'].
    rewrite IH by exact Hend'. rewrite E, <- app_assoc. reflexivity.
Qed.

Lemma finish_tokens st : flat_map split_ws (finish st) = st_tokens st.
Proof.
  destruct st as [m cur]. unfold finish, st_tokens. simpl.
  rewrite <- flush_tokens.
  destruct (if truthy cur then m ++ [strip cur] else m); reflexivity.
Qed.

(** The tokens of the chunks are the tokens of the text. *)
Lemma split_message_tokens (text : str) :
  flat_map split_ws (split_message text L) = split_ws text.
Proof.
  unfold split_message.
  rewrite finish_tokens, run_lines_tokens by now left.
  apply split_on_tokens.
Qed.

(** *** Chunk lengths *)

Hypothesis L_nonneg : 0 <= L.

Lemma chunk_ok_short (c : str) : len c <= L -> chunk_ok L (strip c).
Proof. intros H. left. pose proof (len_strip c). lia. Qed.

Lemma chunk_ok_word (w : str) : is_word w -> chunk_ok L w.
Proof.
  intros Hw. destruct (Z_le_gt_dec (len w) L); [now left|right].
  split; [exact Hw | lia].
Qed.

Lemma Forall_snoc {A} (P : A -> Prop) (l : list A) (x : A) :
  Forall P l -> P x -> Forall P (l ++ [x]).
Proof. intros. apply Forall_app. split; [assumption | now constructor]. Qed.

Lemma word_step_ok st word :
  st_ok L st -> is_word word -> st_ok L (word_step L st word).
Proof.
  destruct st as [m temp]. unfold st_ok, word_step. simpl.
  intros [Hm Ht] Hw.
  destruct (Z.leb_spec (len temp + len word + 1) L) as [Hle|Hgt]; simpl.
  - split; [exact Hm|]. apply chunk_ok_short.
    rewrite !len_app, len_single. lia.
  - split; [now apply Forall_snoc|].
    rewrite strip_word_space by (exact Hw || apply isspace_sp).
    now apply chunk_ok_word.
Qed.

Lemma word_loop_ok ws : forall st,
  st_ok L st -> Forall is_word ws -> st_ok L (fold_left (word_step L) ws st).
Proof.
  induction ws as [|w ws IH]; intros st Hst Hws; simpl; [exact Hst|].
  inversion Hws; subst. apply IH; [now apply word_step_ok | assumption].
Qed.

Lemma flush_ok (m : list str) (cur : str) :
  Forall (chunk_ok L) m -> chunk_ok L (strip cur) ->
  Forall (chunk_ok L) (if truthy cur then m ++ [strip cur] else m).
Proof. intros Hm Hc. destruct (truthy cur); [now apply Forall_snoc | exact Hm]. Qed.

Lemma line_step_ok st line : st_ok L st -> st_ok L (line_step L st line).
Proof.
  destruct st as [m cur]. unfold st_ok at 1, line_step. simpl.
  intros [Hm Hc].
  destruct (Z.leb_spec (len cur + len line + 1) L) as [Hle|Hgt].
  - split; [exact Hm|]. simpl. apply chunk_ok_short.
    rewrite !len_app, len_single. lia.
  - destruct (Z.gtb_spec (len line) L) as [Hlong|Hfit].
    + apply word_loop_ok; [|apply split_ws_are_words].
      split; simpl; [now apply flush_ok|].
      left. cbn. exact L_nonneg.
    + split; simpl; [now apply flush_ok|].
      left. pose proof (len_strip_snoc line nl isspace_nl). lia.
Qed.

Lemma run_lines_ok ls : forall st, st_ok L st -> st_ok L (run_lines L ls st).
Proof.
  unfold run_lines.
  induction ls as [|l ls IH]; intros st Hst; simpl; [exact Hst|].
  apply IH. now apply line_step_ok.
Qed.

Lemma finish_ok st : st_ok L st -> Forall (chunk_ok L) (finish st).
Proof.
  destruct st as [m cur]. unfold st_ok, finish. simpl. intros [Hm Hc].
  pose proof (flush_ok m cur Hm Hc) as H.
  destruct (if truthy cur then m ++ [strip cur] else m); [|exact H].
  constructor; [|constructor]. left. cbn. exact L_nonneg.
Qed.

Lemma split_message_chunks_ok (text : str) :
  Forall (chunk_ok L) (split_message text L).
Proof.
  apply finish_ok, run_lines_ok. split; simpl; [constructor|].
  left. cbn. exact L_nonneg.
Qed.

End SplitterInvariants.

(* ================================================================== *)
(** ** The message splitter: what is appended to [messages] *)

Section SplitterGrowth.

Variable L : Z.

(** The two branches of each loop body. *)
Lemma word_step_fits st word :
  (len (snd st) + len word + 1 <=? L) = true ->
  word_step L st word = (fst st, snd st ++ word ++ [sp]).
Proof. destruct st as [m temp]. unfold word_step. simpl. now intros ->. Qed.

Lemma word_step_flush st word :
  (len (snd st) + len word + 1 <=? L) = false ->
  word_step L st word = (fst st ++ [strip (snd st)], word ++ [sp]).
Proof. destruct st as [m temp]. unfold word_step. simpl. now intros ->. Qed.

Lemma line_step_fits st line :
  (len (snd st) + len line + 1 <=? L) = true ->
  line_step L st line = (fst st, snd st ++ line ++ [nl]).
Proof. destruct st as [m cur]. unfold line_step. simpl. now intros ->. Qed.

Lemma line_step_long st line :
  (len (snd st) + len line + 1 <=? L) = false ->
  (len line >? L) = true ->
  line_step L st line =
  fold_left (word_step L) (split_ws line) (flushed st, []).
Proof.
  destruct st as [m cur]. unfold line_step, flushed. simpl.
  now intros -> ->.
Qed.

Lemma line_step_next st line :
  (len (snd st) + len line + 1 <=? L) = false ->
  (len line >? L) = false ->
  line_step L st line = (flushed st, line ++ [nl]).
Proof.
  destruct st as [m cur]. unfold line_step, flushed. simpl.
  now intros -> ->.
Qed.

Lemma extends_refl (m : list str) : extends m m.
Proof. exists []. now rewrite app_nil_r. Qed.

Lemma extends_trans (m1 m2 m3 : list str) :
  extends m1 m2 -> extends m2 m3 -> extends m1 m3.
Proof.
  intros [e1 ->] [e2 ->]. exists (e1 ++ e2). now rewrite app_assoc.
Qed.

Lemma extends_snoc (m : list str) (x : str) : extends m (m ++ [x]).
Proof. now exists [x]. Qed.

Lemma word_step_extends st word : extends (fst st) (fst (word_step L st word)).
Proof.
  destruct st as [m temp]. unfold word_step.
  destruct (len temp + len word + 1 <=? L); simpl;
    [apply extends_refl | apply extends_snoc].
Qed.

Lemma word_loop_extends ws : forall st,
  extends (fst st) (fst (fold_left (word_step L) ws st)).
Proof.
  induction ws as [|w ws IH]; intros st; simpl; [apply extends_refl|].
  eapply extends_trans; [apply word_step_extends | apply IH].
Qed.

Lemma flush_extends (m : list str) (cur : str) :
  extends m (if truthy cur then m ++ [strip cur] else m).
Proof. destruct (truthy cur); [apply extends_snoc | apply extends_refl]. Qed.

Lemma line_step_extends st line : extends (fst st) (fst (line_step L st line)).
Proof.
  destruct st as [m cur]. unfold line_step.
  destruct (len cur + len line + 1 <=? L); simpl; [apply extends_refl|].
  destruct (len line >? L).
  - eapply extends_trans; [apply flush_extends|].
    apply (word_loop_extends _ (_, _)).
  - apply flush_extends.
Qed.

Lemma run_lines_extends ls : forall st,
  extends (fst st) (fst (run_lines L ls st)).
Proof.
  unfold run_lines.
  induction ls as [|l ls IH]; intros st; simpl; [apply extends_refl|].
  eapply extends_trans; [apply line_step_extends | apply IH].
Qed.

Lemma finish_extends st : extends (fst st) (finish st).
Proof.
  destruct st as [m cur]. unfold finish. simpl.
  destruct cur as [|c cur]; simpl.
  - destruct m; [now exists [[]] | apply extends_refl].
  - destruct (m ++ [strip (c :: cur)]) eqn:E.
    + now apply app_eq_nil in E as [_ ?].
    + rewrite <- E. apply extends_snoc.
Qed.

Lemma next_nonempty_extends (m m1 m2 : list str) :
  next_nonempty m m1 -> extends m1 m2 -> next_nonempty m m2.
Proof.
  intros (c & rest & -> & Hc) [e ->]. exists c, (rest ++ e).
  split; [|exact Hc]. now rewrite <- app_assoc.
Qed.

Lemma next_nonempty_flush (m : list str) (cur : str) :
  has_nonspace cur = true -> next_nonempty m (m ++ [strip cur]).
Proof. intros H. exists (strip cur), []. split; [reflexivity|]. now apply strip_nonempty. Qed.

Lemma word_loop_next ws : forall st,
  Forall is_word ws -> has_nonspace (snd st) = true ->
  has_nonspace (snd (fold_left (word_step L) ws st)) = true
  /\ (fst (fold_left (word_step L) ws st) = fst st
      \/ next_nonempty (fst st) (fst (fold_left (word_step L) ws st))).
Proof.
  induction ws as [|w ws IH]; intros st Hws Ht; simpl.
  - now split; [|left].
  - inversion Hws as [|? ? Hw Hws']; subst.
    destruct (len (snd st) + len w + 1 <=? L) eqn:E.
    + rewrite (word_step_fits _ _ E).
      apply (IH (fst st, snd st ++ w ++ [sp])); [exact Hws'|]. simpl.
      now rewrite has_nonspace_app, Ht.
    + rewrite (word_step_flush _ _ E).
      destruct (IH (fst st ++ [strip (snd st)], w ++ [sp]) Hws') as [Hn _].
      { simpl. now rewrite has_nonspace_app, is_word_has_nonspace. }
      split; [exact Hn|]. right.
      eapply next_nonempty_extends;
        [apply (next_nonempty_flush (fst st) (snd st) Ht)|].
      apply (word_loop_extends ws (_, _)).
Qed.

Lemma flushed_next st :
  has_nonspace (snd st) = true -> next_nonempty (fst st) (flushed st).
Proof.
  intros Hc. unfold flushed. rewrite (has_nonspace_truthy _ Hc).
  now apply next_nonempty_flush.
Qed.

Lemma finish_run_next ls : forall st,
  has_nonspace (snd st) = true ->
  next_nonempty (fst st) (finish (run_lines L ls st)).
Proof.
  unfold run_lines.
  induction ls as [|l ls IH]; intros st Hc; simpl.
  - destruct st as [m cur]. simpl in *.
    rewrite (has_nonspace_truthy _ Hc).
    destruct (m ++ [strip cur]) eqn:E.
    + now apply app_eq_nil in E as [_ ?].
    + rewrite <- E. now apply next_nonempty_flush.
  - destruct (len (snd st) + len l + 1 <=? L) eqn:E.
    + rewrite (line_step_fits _ _ E).
      apply (IH (fst st, snd st ++ l ++ [nl])). simpl.
      now rewrite has_nonspace_app, Hc.
    + eapply next_nonempty_extends; [apply (flushed_next st Hc)|].
      destruct (len l >? L) eqn:E'.
      * rewrite (line_step_long _ _ E E').
        eapply extends_trans;
          [apply (word_loop_extends (split_ws l) (flushed st, []))|].
        eapply extends_trans;
          [apply (run_lines_extends ls) | apply finish_extends].
      * rewrite (line_step_next _ _ E E').
        eapply extends_trans;
          [apply (run_lines_extends ls (flushed st, l ++ [nl]))
          | apply finish_extends].
Qed.

(** Every chunk is the [strip] of something. *)
Section Stripped.

Variable P : str -> Prop.
Hypothesis P_strip : forall x, P (strip x).

Lemma word_loop_stripped ws : forall st,
  Forall P (fst st) -> Forall P (fst (fold_left (word_step L) ws st)).
Proof.
  induction ws as [|w ws IH]; intros st Hst; simpl; [exact Hst|].
  apply IH. destruct st as [m temp]. unfold word_step.
  destruct (len temp + len w + 1 <=? L); simpl; [exact Hst|].
  apply Forall_app. split; [exact Hst | constructor; [apply P_strip | constructor]].
Qed.

Lemma flushed_stripped st : Forall P (fst st) -> Forall P (flushed st).
Proof.
  intros Hst. unfold flushed. destruct (truthy (snd st)); [|exact Hst].
  apply Forall_app. split; [exact Hst | constructor; [apply P_strip | constructor]].
Qed.

Lemma run_lines_stripped ls : forall st,
  Forall P (fst st) -> Forall P (fst (run_lines L ls st)).
Proof.
  unfold run_lines.
  induction ls as [|l ls IH]; intros st Hst; simpl; [exact Hst|].
  apply IH.
  destruct (len (snd st) + len l + 1 <=? L) eqn:E.
  - now rewrite (line_step_fits _ _ E).
  - destruct (len l >? L) eqn:E'.
    + rewrite (line_step_long _ _ E E').
      apply (word_loop_stripped _ (flushed st, [])), flushed_stripped, Hst.
    + rewrite (line_step_next _ _ E E'). apply flushed_stripped, Hst.
Qed.

Lemma split_message_stripped (text : str) : Forall P (split_message text L).
Proof.
  unfold split_message.
  pose proof (run_lines_stripped (split_on nl text) ([], [])
                (Forall_nil P)) as H.
  destruct (run_lines L (split_on nl text) ([], [])) as [m cur].
  apply (flushed_stripped (m, cur)) in H. unfold flushed in H. simpl in H.
  unfold finish.
  destruct (if truthy cur then m ++ [strip cur] else m); [|exact H].
  constructor; [apply (P_strip []) | constructor].
Qed.

End Stripped.

End SplitterGrowth.


(* ================================================================== *)
(** ** The message splitter: properties *)

Section SplitterProperties.

Lemma filter_concat_tokens (chunks : list str) :
  filter (fun c => negb (isspace c)) (List.concat chunks)
  = List.concat (flat_map split_ws chunks).
Proof.
  induction chunks as [|x xs IH]; simpl; [reflexivity|].
  now rewrite filter_app, concat_app, IH, concat_split_ws.
Qed.

Lemma split_on_no_sep (sep : char) (s : str) :
  Forall (fun c => c <> sep) s -> split_on sep s = [s].
Proof.
  induction 1 as [|c s Hc _ IH]; simpl; [reflexivity|].
  destruct (N.eqb_spec c sep); [contradiction|]. now rewrite IH.
Qed.

Lemma word_no_newline (w : str) : is_word w -> Forall (fun c => c <> nl) w.
Proof.
  intros [_ Hw]. eapply Forall_impl; [|exact Hw].
  intros c Hc ->. now rewrite isspace_nl in Hc.
Qed.

Lemma run_lines_app (L : Z) (pre post : list str) st :
  run_lines L (pre ++ post) st = run_lines L post (run_lines L pre st).
Proof. apply fold_left_app. Qed.

End SplitterProperties.

(** C1, amended.  For every text [T] and every max length [L >= 0], every
    chunk of [split_message T L] has length at most [L], except a chunk
    that is a single word of [T] whose own length exceeds [L]. *)
Theorem split_message_chunk_length (T : str) (L : Z) :
  0 <= L ->
  Forall (fun c => len c <= L
                   \/ (is_word c /\ L < len c /\ In c (split_ws T)))
         (split_message T L).
Proof.
  intros HL. apply Forall_forall. intros c Hin.
  pose proof (split_message_chunks_ok L HL T) as Hok.
  rewrite Forall_forall in Hok.
  destruct (Hok c Hin) as [Hle | [Hw Hgt]]; [now left|right].
  split; [exact Hw|]. split; [exact Hgt|].
  rewrite <- (split_message_tokens L T).
  apply in_flat_map. exists c. split; [exact Hin|].
  rewrite (split_ws_word c Hw). now left.
Qed.

(** C2.  The tokens of the chunks of [split_message T L], chunk after
    chunk, are the tokens of [T] in their order; the chunks put end to end
    have the non-space characters of [T]; and every chunk is trimmed. *)
Theorem split_message_keeps_content (T : str) (L : Z) :
  flat_map split_ws (split_message T L) = split_ws T
  /\ filter (fun c => negb (isspace c)) (List.concat (split_message T L))
     = filter (fun c => negb (isspace c)) T
  /\ Forall (fun c => strip c = c) (split_message T L).
Proof.
  split; [apply split_message_tokens|]. split.
  - now rewrite filter_concat_tokens, split_message_tokens, concat_split_ws.
  - apply split_message_stripped. apply strip_idem.
Qed.

(** C5.  [split_message] of the empty string is the one chunk [""], and
    no text and max length give an empty list. *)
Theorem split_message_never_empty (L : Z) :
  split_message [] L = [[]]
  /\ forall T, split_message T L <> [].
Proof.
  split.
  - unfold split_message, run_lines, line_step. cbn.
    destruct (1 <=? L); [reflexivity|].
    destruct (0 >? L); reflexivity.
  - intros T. unfold split_message.
    destruct (run_lines L (split_on nl T) ([], [])) as [m cur].
    unfold finish.
    destruct (if truthy cur then m ++ [strip cur] else m); discriminate.
Qed.

(** C10.  [get_text_statistics] of the empty string counts one line, no
    word and no character; the line count of any string is at least 1. *)
Theorem text_statistics_lines (text : str) (tr : list event) :
  get_text_statistics [] tt tr
  = (Ok (Some {| lines := 1; words := 0; characters := 0 |}), tt, tr)
  /\ exists r, get_text_statistics text tt tr = (Ok (Some r), tt, tr)
               /\ 1 <= lines r.
Proof.
  split; [reflexivity|].
  eexists. split; [reflexivity|]. simpl.
  pose proof (split_on_nonempty nl text).
  destruct (split_on nl text); [congruence | simpl; lia].
Qed.

(** C1, as stated, fails: [max_length] is any integer, and with the limit
    [-1] the text ["a"] gives [""] and ["a"]; the empty chunk is longer
    than the limit and is no word. *)
Lemma split_message_negative_limit :
  split_message (lit "a") (-1) = [[]; lit "a"]
  /\ ~ Forall (fun c => len c <= -1 \/ (is_word c /\ -1 < len c))
             (split_message (lit "a") (-1)).
Proof.
  split; [reflexivity|].
  change (split_message (lit "a") (-1)) with [@nil char; lit "a"].
  intros H. inversion H as [|? ? [Hle | [[Hne _] _]] _].
  - cbn in Hle. lia.
  - now apply Hne.
Qed.

Lemma split_message_chunk_length_witness :
  0 <= 5
  /\ split_message (lit "hi extraordinary x") 5
     = [lit "hi"; lit "extraordinary"; lit "x"]
  /\ Forall (fun c => len c <= 5
                      \/ (is_word c /\ 5 < len c
                          /\ In c (split_ws (lit "hi extraordinary x"))))
            (split_message (lit "hi extraordinary x") 5).
Proof.
  split; [lia|]. split; [reflexivity|].
  apply (split_message_chunk_length (lit "hi extraordinary x") 5). lia.
Defined.

(** C9, as stated, fails: in ["ab\n    \nabcd"] with limit 3 the
    word-packing branch is entered at the third line with an empty
    accumulator and a first word of length 4, and the result begins with
    ["ab"]. *)
Lemma wordpack_not_at_head :
  wordpack_entered_empty text_blank_line 3
    [lit "ab"; lit "    "] (lit "abcd") [] (lit "abcd")
  /\ split_message text_blank_line 3 = [lit "ab"; []; lit "abcd"]
  /\ ~ begins_empty_then_nonempty (split_message text_blank_line 3).
Proof.
  split; [|split].
  - repeat split; try reflexivity; try (cbn; lia). now exists [].
  - reflexivity.
  - intros (rest & E & _). vm_compute in E. discriminate.
Qed.

(** Entered on the first line, the branch puts the empty string first, but
    a later line can add another one: ["ab\ncd"] with limit 1. *)
Example wordpack_twice :
  wordpack_entered_empty text_two_words 1 [] (lit "ab") [lit "cd"] (lit "ab")
  /\ split_message text_two_words 1 = [[]; lit "ab"; []; lit "cd"]
  /\ ~ begins_empty_then_nonempty (split_message text_two_words 1).
Proof.
  split; [|split].
  - repeat split; try reflexivity; try (cbn; lia). now exists [].
  - reflexivity.
  - intros (rest & E & _ & F). vm_compute in E.
    injection E as <-. inversion F as [|? ? _ F']. inversion F' as [|? ? Hne _].
    now apply Hne.
Qed.

(** C9, amended.  When the word-packing branch is entered and the first
    word of the over-long line has length at least [L], an empty string is
    appended right after the chunks emitted so far (the flush of a
    non-empty accumulator included) and the chunk appended next is not
    empty; entered with an empty accumulator, nothing is flushed before
    it; on the first line the list begins with the empty string; a text
    that is one such word gives exactly [""] and the word. *)
Theorem wordpack_emits_empty_chunk (T : str) (L : Z)
  (pre : list str) (line : str) (post : list str) (w : str) :
  wordpack_entered T L pre line post w ->
  (exists c rest,
      c <> []
      /\ split_message T L
         = flushed (run_lines L pre ([], [])) ++ [] :: c :: rest
      /\ (snd (run_lines L pre ([], [])) = [] ->
          split_message T L
          = fst (run_lines L pre ([], [])) ++ [] :: c :: rest)
      /\ (pre = [] -> split_message T L = [] :: c :: rest))
  /\ (is_word T -> split_message T L = [[]; T]).
Proof.
  intros (Hsplit & Hlong & (ws & Hws) & Hw).
  assert (Forall is_word (w :: ws)) as Hwords
    by (rewrite <- Hws; apply split_ws_are_words).
  inversion Hwords as [|? ? Hword Hrest]; subst.
  destruct (run_lines L pre ([], [])) as [m0 cur0] eqn:Hpre.
  assert (line_step L (m0, cur0) line
          = fold_left (word_step L) ws
              (flushed (m0, cur0) ++ [[]], w ++ [sp])) as Hline.
  { pose proof (len_nonneg cur0).
    rewrite line_step_long.
    - rewrite Hws. cbn [fold_left]. rewrite word_step_flush; [reflexivity|].
      apply Z.leb_gt. cbn. lia.
    - apply Z.leb_gt. cbn [snd]. lia.
    - apply Z.gtb_lt. lia. }
  assert (split_message T L
          = finish (run_lines L post
                      (fold_left (word_step L) ws
                         (flushed (m0, cur0) ++ [[]], w ++ [sp])))) as Hres.
  { unfold split_message. rewrite Hsplit, run_lines_app, Hpre.
    unfold run_lines. cbn [fold_left]. do 2 f_equal. exact Hline. }
  split.
  - assert (has_nonspace (snd (flushed (m0, cur0) ++ [[]], w ++ [sp])) = true)
      as Hn.
    { simpl. now rewrite has_nonspace_app, is_word_has_nonspace. }
    destruct (word_loop_next L ws _ Hrest Hn) as [Hn' Hfst].
    destruct (finish_run_next L post _ Hn') as (c' & rest' & E & Hc').
    assert (exists c rest, c <> [] /\
              split_message T L = flushed (m0, cur0) ++ [] :: c :: rest)
      as (c & rest & Hc & Hres').
    { destruct Hfst as [Hsame | (c & rest & Hnext & Hc)].
      - exists c', rest'. split; [exact Hc'|].
        rewrite Hres, E, Hsame. simpl fst. now rewrite <- app_assoc.
      - exists c, (rest ++ c' :: rest'). split; [exact Hc|].
        rewrite Hres, E, Hnext. simpl fst.
        now rewrite <- !app_assoc. }
    exists c, rest. split; [exact Hc|]. split; [exact Hres'|]. split.
    + simpl. intros ->. exact Hres'.
    + intros ->. cbn in Hpre. injection Hpre as <- <-. exact Hres'.
  - intros HT.
    rewrite (split_on_no_sep nl T (word_no_newline T HT)) in Hsplit.
    destruct pre as [|p pre].
    + injection Hsplit as <- <-.
      rewrite (split_ws_word T HT) in Hws. injection Hws as <- <-.
      cbn in Hpre. injection Hpre as <- <-.
      rewrite Hres. cbn [fold_left run_lines finish app flushed snd fst truthy].
      assert (truthy (T ++ [sp]) = true) as ->
        by (apply has_nonspace_truthy;
            now rewrite has_nonspace_app, is_word_has_nonspace).
      now rewrite (strip_word_space T sp HT isspace_sp).
    + injection Hsplit as _ Hnil. now destruct pre.
Qed.

Lemma wordpack_emits_empty_chunk_witness :
  wordpack_entered text_blank_line 3
    [lit "ab"; lit "    "] (lit "abcd") [] (lit "abcd")
  /\ exists c rest,
       c <> []
       /\ split_message text_blank_line 3 = [lit "ab"] ++ [] :: c :: rest.
Proof.
  assert (wordpack_entered text_blank_line 3
            [lit "ab"; lit "    "] (lit "abcd") [] (lit "abcd")) as H.
  { repeat split; try reflexivity; try (cbn; lia). now exists []. }
  split; [exact H|].
  destruct (wordpack_emits_empty_chunk _ _ _ _ _ _ H)
    as [(c & rest & Hc & E & _) _].
  exists c, rest. split; [exact Hc | exact E].
Defined.

(* ================================================================== *)
(** ** The extractors: properties *)

Section ExtractorFacts.

Variable w : World.
Variable cfg : Config.

Lemma str_eqb_refl (a : str) : str_eqb a a = true.
Proof. induction a as [|c a IH]; simpl; [reflexivity|]. now rewrite N.eqb_refl. Qed.

Lemma str_in_In (a : str) (xs : list str) : In a xs -> str_in a xs = true.
Proof.
  intros Hin. apply existsb_exists. exists a. split; [exact Hin|].
  apply str_eqb_refl.
Qed.

(** The local extractor never raises: it returns the page's text, or the
    error string of the page. *)
Lemma tesseract_page (image : Image) (i : Z) (tr : list event) :
  exists tr',
    extract_text_from_image_tesseract w cfg (Decoded image) (Some i) tt tr
    = (Ok (page_text w cfg i image), tt, tr').
Proof.
  unfold extract_text_from_image_tesseract, page_text, page_outcome,
    try_except, bind, call, ret, log_error, emit.
  destruct (Image_convert w image (lit "RGB")) as [rgb|e].
  - destruct (image_to_string w rgb (OCR_LANGUAGES cfg) (OCR_CONFIG cfg));
      eexists; reflexivity.
  - eexists; reflexivity.
Qed.

Lemma pages_loop_texts (total_pages : Z) (images : list Image) :
  forall i all_text tr,
  exists tr',
    pages_loop w cfg total_pages i images all_text tt tr
    = (Ok (all_text ++ loop_texts w cfg total_pages i images), tt, tr').
Proof.
  induction images as [|image images IH]; intros i all_text tr; simpl.
  - exists tr. now rewrite app_nil_r.
  - destruct (tesseract_page image i tr) as [tr1 E1].
    unfold bind, invoke. rewrite E1.
    destruct (IH (i + 1)
                (if i <? total_pages
                 then (all_text ++ [page_text w cfg i image]) ++ [page_separator]
                 else all_text ++ [page_text w cfg i image]) tr1)
      as [tr2 E2].
    exists tr2. rewrite E2. f_equal. f_equal. f_equal.
    destruct (i <? total_pages); simpl; now rewrite <- !app_assoc.
Qed.

Lemma loop_texts_separated (images : list Image) : forall i total_pages,
  total_pages = i + Z.of_nat (List.length images) - 1 ->
  loop_texts w cfg total_pages i images = with_separators (pages_text w cfg i images).
Proof.
  induction images as [|image images IH]; intros i total Ht; [reflexivity|].
  cbn [loop_texts pages_text].
  destruct images as [|image' images'].
  - simpl in Ht. destruct (Z.ltb_spec i total); [lia | reflexivity].
  - rewrite (IH (i + 1) total) by (cbn [List.length] in *; lia).
    cbn [List.length] in Ht.
    destruct (Z.ltb_spec i total); [reflexivity | lia].
Qed.

Lemma pdf_rasterized (pdf_file : PdfArg) (images : list Image)
  (tr : list event) :
  rasterize w cfg pdf_file = Ok images ->
  returned (extract_text_from_pdf w cfg pdf_file tt tr)
  = Ok (pdf_header (Z.of_nat (List.length images))
        ++ join [nl] (with_separators (pages_text w cfg 1 images))).
Proof.
  intros Hr.
  destruct (pages_loop_texts (Z.of_nat (List.length images)) images 1 [] tr)
    as [tr' E].
  rewrite loop_texts_separated in E by lia. simpl in E.
  unfold extract_text_from_pdf, try_except, bind, returned.
  destruct pdf_file as [data | [data | e]]; simpl in Hr;
    unfold call; try discriminate; rewrite Hr, E; reflexivity.
Qed.

Lemma pdf_not_rasterized (pdf_file : PdfArg) (e : exn) (tr : list event) :
  rasterize w cfg pdf_file = Raise e ->
  extract_text_from_pdf w cfg pdf_file tt tr
  = (Ok (lit "ERROR: PDF processing failed: " ++ exn_str e), tt,
     tr ++ [EvLogError (lit "PDF OCR error: " ++ exn_str e)]).
Proof.
  intros Hr.
  unfold extract_text_from_pdf, try_except, bind, call, log_error, emit, ret.
  destruct pdf_file as [data | [data | e']]; simpl in Hr.
  - now rewrite Hr.
  - now rewrite Hr.
  - now injection Hr as ->.
Qed.

(** Enhancement never fails the caller. *)
Lemma enhance_never_raises (image : Image) (tr : list event) :
  exists image' tr',
    enhance_image_for_ocr w image tt tr = (Ok image', tt, tr').
Proof.
  unfold enhance_image_for_ocr, enhance_body, rebind, try_except, bind, call,
    get, put, ret, log_error, emit.
  repeat match goal with
         | |- context [match ?x with Ok _ => _ | Raise _ => _ end] =>
             destruct x
         | |- context [if ?b then _ else _] => destruct b
         end;
    do 2 eexists; reflexivity.
Qed.

End ExtractorFacts.

(** C6.  Called with a value that is neither a [str] nor [bytes], the
    remote extractor returns ["ERROR: Invalid image data type"] and leaves
    no event behind: no file is read, no request is posted, nothing is
    logged. *)
Theorem ocr_api_invalid_type (w : World) (cfg : Config) (image_data : pyval)
  (tr : list event) :
  isinstance_str image_data = false ->
  isinstance_bytes image_data = false ->
  extract_text_from_image_ocr_api w cfg image_data tt tr
  = (Ok (lit "ERROR: Invalid image data type"), tt, tr).
Proof.
  intros Hs Hb. destruct image_data; try discriminate; reflexivity.
Qed.

Lemma ocr_api_invalid_type_witness :
  extract_text_from_image_ocr_api silent_world sample_config (VInt 7) tt []
  = (Ok (lit "ERROR: Invalid image data type"), tt, []).
Proof.
  apply (ocr_api_invalid_type silent_world sample_config (VInt 7) []);
    reflexivity.
Defined.

(** C7.  For an input that decodes to [image]: a width or a height over
    the configured maximum gives [(False, "Image size exceeds allowed
    limits")]; both within the maximum and a format among JPEG, PNG, BMP
    and TIFF give [(True, "OK")]. *)
Theorem validate_image_verdict (w : World) (cfg : Config) (image_data : pyval)
  (image : Image) (tr : list event) :
  open_image_data w image_data = Ok image ->
  (fst (MAX_IMAGE_SIZE cfg) < fst (size image)
   \/ snd (MAX_IMAGE_SIZE cfg) < snd (size image) ->
   validate_image w cfg image_data tt tr
   = (Ok (false, lit "Image size exceeds allowed limits"), tt, tr))
  /\ (fst (size image) <= fst (MAX_IMAGE_SIZE cfg) ->
      snd (size image) <= snd (MAX_IMAGE_SIZE cfg) ->
      (exists f, format image = Some f
                 /\ In f [lit "JPEG"; lit "PNG"; lit "BMP"; lit "TIFF"]) ->
      validate_image w cfg image_data tt tr = (Ok (true, lit "OK"), tt, tr)).
Proof.
  intros Hopen.
  unfold validate_image, try_except, bind, call, ret. rewrite Hopen.
  split.
  - intros Hbig.
    assert ((fst (size image) >? fst (MAX_IMAGE_SIZE cfg))
            || (snd (size image) >? snd (MAX_IMAGE_SIZE cfg)) = true) as ->.
    { apply orb_true_iff. rewrite !Z.gtb_lt. exact Hbig. }
    reflexivity.
  - intros Hw Hh (f & Hf & Hin).
    assert ((fst (size image) >? fst (MAX_IMAGE_SIZE cfg))
            || (snd (size image) >? snd (MAX_IMAGE_SIZE cfg)) = false) as ->.
    { apply orb_false_iff. split; rewrite Z.gtb_ltb; apply Z.ltb_ge; assumption. }
    rewrite Hf, (str_in_In f allowed_formats Hin). reflexivity.
Qed.

Lemma validate_image_verdict_witness :
  validate_image (opens_as (blank (lit "RGB") 5000 10 (Some (lit "PNG"))))
    sample_config (VBytes []) tt []
  = (Ok (false, lit "Image size exceeds allowed limits"), tt, [])
  /\ validate_image (opens_as gray_scan) sample_config (VBytes []) tt []
     = (Ok (true, lit "OK"), tt, []).
Proof.
  split.
  - apply (validate_image_verdict
             (opens_as (blank (lit "RGB") 5000 10 (Some (lit "PNG"))))
             sample_config (VBytes [])
             (blank (lit "RGB") 5000 10 (Some (lit "PNG"))) []);
      [reflexivity | left; simpl; lia].
  - apply (validate_image_verdict (opens_as gray_scan) sample_config
             (VBytes []) gray_scan []);
      [reflexivity | simpl; lia | simpl; lia |].
    exists (lit "PNG"). split; [reflexivity | right; left; reflexivity].
Defined.

(** C8.  When the OCR of the image reads [raw]: with a page number [n]
    the result is a line of 50 [=], the line [Page n], a line of 50 [=],
    an empty line, and then the trimmed text; without a page number it is
    the trimmed text. *)
Theorem tesseract_page_banner (w : World) (cfg : Config) (image : ImageArg)
  (raw : str) (tr : list event) :
  ocr_reads w cfg image raw ->
  (forall n,
      extract_text_from_image_tesseract w cfg image (Some n) tt tr
      = (Ok (lit "==================================================" ++ [nl]
             ++ lit "Page " ++ str_of_int n ++ [nl]
             ++ lit "==================================================" ++ [nl]
             ++ [nl]
             ++ strip raw), tt, tr))
  /\ extract_text_from_image_tesseract w cfg image None tt tr
     = (Ok (strip raw), tt, tr).
Proof.
  intros (img & rgb & Himg & Hrgb & Hraw).
  unfold extract_text_from_image_tesseract, try_except, bind, call, ret.
  split; [intros n|];
    (destruct image as [i | data]; simpl in Himg;
     [injection Himg as -> | rewrite Himg]);
    rewrite Hrgb, Hraw; try reflexivity;
    unfold page_header, rule, times; cbn [repeat lit]; do 3 f_equal;
    now rewrite <- !app_assoc.
Qed.

Lemma tesseract_page_banner_witness :
  ocr_reads (opens_as gray_scan) sample_config (Raw [])
    ([sp] ++ lit "text" ++ [nl])
  /\ extract_text_from_image_tesseract (opens_as gray_scan) sample_config
       (Raw []) (Some 3) tt []
     = (Ok (lit "==================================================" ++ [nl]
            ++ lit "Page 3" ++ [nl]
            ++ lit "==================================================" ++ [nl]
            ++ [nl]
            ++ lit "text"), tt, []).
Proof.
  assert (ocr_reads (opens_as gray_scan) sample_config (Raw [])
            ([sp] ++ lit "text" ++ [nl])) as H
    by (exists gray_scan, gray_scan; repeat split; reflexivity).
  split; [exact H|].
  exact (proj1 (tesseract_page_banner _ _ _ _ [] H) 3).
Defined.

(** C3, as stated, fails: the OCR of the second page raises, and the
    document's result is the usual output, with the text of the first page
    and the page's own error string in the place of the second. *)
Lemma pdf_keeps_earlier_pages :
  pdf_failure second_page_fails sample_config (PdfBytes [])
  /\ extract_text_from_pdf second_page_fails sample_config (PdfBytes []) tt []
     = (Ok (pdf_header 2
            ++ page_header 1 ++ lit "hello" ++ [nl]
            ++ page_separator ++ [nl]
            ++ lit "ERROR: Image processing failed: boom"), tt,
        [EvLogError (lit "Tesseract OCR error: boom")])
  /\ ~ all_or_nothing second_page_fails sample_config (PdfBytes []).
Proof.
  assert (pdf_failure second_page_fails sample_config (PdfBytes [])) as Hfail.
  { right. exists [page_one; page_two]. split; [reflexivity|].
    apply Exists_cons_tl, Exists_cons_hd.
    exists (Error (lit "boom")). reflexivity. }
  split; [exact Hfail|]. split; [vm_compute; reflexivity|].
  intros H. destruct (H Hfail) as [msg E].
  vm_compute in E. discriminate.
Qed.

(** C3, amended.  A failure of the rasterization gives the document's
    error string alone, and one log entry.  Once the pages are rasterized
    the result is the header and the pages' texts with their separators,
    where a page whose extraction fails is present as its own error string
    (see [page_text]): the other pages are kept. *)
Theorem pdf_failure_handling (w : World) (cfg : Config) (pdf_file : PdfArg)
  (tr : list event) :
  (forall e,
      rasterize w cfg pdf_file = Raise e ->
      extract_text_from_pdf w cfg pdf_file tt tr
      = (Ok (lit "ERROR: PDF processing failed: " ++ exn_str e), tt,
         tr ++ [EvLogError (lit "PDF OCR error: " ++ exn_str e)]))
  /\ (forall images,
         rasterize w cfg pdf_file = Ok images ->
         returned (extract_text_from_pdf w cfg pdf_file tt tr)
         = Ok (pdf_header (Z.of_nat (List.length images))
               ++ join [nl] (with_separators (pages_text w cfg 1 images)))).
Proof.
  split.
  - intros e. apply pdf_not_rasterized.
  - intros images. apply pdf_rasterized.
Qed.

Lemma pdf_failure_handling_witness :
  extract_text_from_pdf silent_world sample_config (PdfBytes []) tt []
  = (Ok (lit "ERROR: PDF processing failed: unavailable"), tt,
     [EvLogError (lit "PDF OCR error: unavailable")])
  /\ returned (extract_text_from_pdf second_page_fails sample_config
                 (PdfBytes []) tt [])
     = Ok (pdf_header 2
           ++ join [nl]
                [page_header 1 ++ lit "hello";
                 page_separator;
                 lit "ERROR: Image processing failed: boom"]).
Proof.
  split.
  - apply (proj1 (pdf_failure_handling silent_world sample_config
                    (PdfBytes []) []) (Error (lit "unavailable"))).
    reflexivity.
  - apply (proj2 (pdf_failure_handling second_page_fails sample_config
                    (PdfBytes []) []) [page_one; page_two]).
    reflexivity.
Defined.

(** C4: the code at an input where the claim fails.  A grey-scale scan is
    converted to RGB, then the sharpening raises: the [except] clause
    returns the converted image, which [image] is bound to by then, and
    not the scan it was called with. *)
Theorem enhance_returns_intermediate :
  enhance_image_for_ocr sharpening_fails gray_scan tt []
  = (Ok (blank (lit "RGB") 640 480 None), tt,
     [EvLogError (lit "Image enhancement error: out of memory")])
  /\ blank (lit "RGB") 640 480 None <> gray_scan.
Proof.
  split; [vm_compute; reflexivity | discriminate].
Qed.

(* ================================================================== *)
(** ** The remote extractor: every path *)

Section RemoteExtractor.

Variable w : World.
Variable cfg : Config.

Lemma truthy_nonempty (s : str) : truthy s = true -> s <> [].
Proof. destruct s; [discriminate | discriminate]. Qed.

(** [post_image] posts one request and then either returns a non-empty
    string or raises. *)
Lemma post_image_posts_once (b : bytes) (tr : list event) :
  exists r,
    post_image w cfg b tt tr = (r, tt, tr ++ [EvPost (ocr_request cfg b)])
    /\ match r with Ok s => s <> [] | Raise _ => True end.
Proof.
  unfold post_image, bind, call, emit, ret, first_item.
  fold (ocr_request cfg b).
  destruct (requests_post w (ocr_request cfg b)) as [response|e];
    [|eexists; split; [reflexivity | exact I]].
  destruct (ok response);
    [|eexists; split; [reflexivity | discriminate]].
  destruct (json response) as [result|e];
    [|eexists; split; [reflexivity | exact I]].
  destruct (match IsErroredOnProcessing result with
            | Some b0 => b0 | None => false end).
  - destruct (match ErrorMessage result with
              | Some msgs => msgs | None => [lit "Unknown error"] end);
      eexists; (split; [reflexivity|]); [exact I | discriminate].
  - destruct (ParsedResults result) as [[|parsed rest]|];
      try (eexists; split; [reflexivity | discriminate]).
    unfold strip_method, call, ret.
    destruct (match ParsedText parsed with
              | Some v => v | None => JStr [] end) as [t|k];
      [|eexists; split; [reflexivity | exact I]].
    destruct (truthy (strip t)) eqn:E;
      eexists; (split; [reflexivity|]);
      [now apply truthy_nonempty | discriminate].
Qed.

End RemoteExtractor.

(** X1.  Whatever it is called with and whatever the libraries answer, the
    remote extractor returns a string, never raises, and the string is
    never empty. *)
Theorem ocr_api_returns_text (w : World) (cfg : Config) (image_data : pyval)
  (tr : list event) :
  exists s tr',
    extract_text_from_image_ocr_api w cfg image_data tt tr = (Ok s, tt, tr')
    /\ s <> [].
Proof.
  assert (forall b t, exists s tr',
             try_except (post_image w cfg b)
               (fun e => match e with
                         | RequestTimeout _ =>
                             ret (lit "ERROR: OCR API request timed out")
                         | Error msg =>
                             log_error (lit "OCR API error: " ++ msg) ;;;
                             ret (lit "ERROR: " ++ msg)
                         end) tt t = (Ok s, tt, tr')
             /\ s <> []) as Hpost.
  { intros b t. destruct (post_image_posts_once w cfg b t) as (r & E & Hr).
    unfold try_except. rewrite E.
    destruct r as [s|[msg|msg]]; do 2 eexists;
      (split; [reflexivity|]); [exact Hr | discriminate | discriminate]. }
  unfold extract_text_from_image_ocr_api.
  destruct image_data;
    try (do 2 eexists; split; [reflexivity | discriminate]).
  - unfold try_except at 1, bind at 1, emit, bind at 1, call.
    destruct (read_file w s) as [b|[msg|msg]].
    + destruct (Hpost b (tr ++ [EvReadFile s])) as (s' & tr' & E & Hs).
      unfold try_except in E.
      destruct (post_image w cfg b tt (tr ++ [EvReadFile s]))
        as [[[out|e] u] t]; do 2 eexists; (split; [exact E | exact Hs]).
    + do 2 eexists; split; [reflexivity | discriminate].
    + do 2 eexists; split; [reflexivity | discriminate].
  - apply Hpost.
Qed.

(** X2.  When the post raises: a timeout gives exactly the time-out
    string and is not logged; any other exception gives ["ERROR: "] and
    its message, with one log entry. *)
Theorem ocr_api_post_raises (w : World) (cfg : Config) (b : bytes) (e : exn)
  (tr : list event) :
  requests_post w (ocr_request cfg b) = Raise e ->
  extract_text_from_image_ocr_api w cfg (VBytes b) tt tr
  = match e with
    | RequestTimeout _ =>
        (Ok (lit "ERROR: OCR API request timed out"), tt,
         tr ++ [EvPost (ocr_request cfg b)])
    | Error msg =>
        (Ok (lit "ERROR: " ++ msg), tt,
         tr ++ [EvPost (ocr_request cfg b);
                EvLogError (lit "OCR API error: " ++ msg)])
    end.
Proof.
  intros H.
  unfold extract_text_from_image_ocr_api, try_except, post_image, bind, call,
    emit, ret, log_error.
  fold (ocr_request cfg b). rewrite H.
  destruct e; unfold emit; [reflexivity|].
  now rewrite <- app_assoc.
Qed.

Lemma ocr_api_post_raises_witness :
  extract_text_from_image_ocr_api
    (answering unavailable (Raise (RequestTimeout (lit "read timed out"))))
    sample_config (VBytes []) tt []
  = (Ok (lit "ERROR: OCR API request timed out"), tt,
     [EvPost (ocr_request sample_config [])]).
Proof.
  apply (ocr_api_post_raises
           (answering unavailable (Raise (RequestTimeout (lit "read timed out"))))
           sample_config [] (RequestTimeout (lit "read timed out")) []).
  reflexivity.
Defined.

(** X3.  A response that is not [ok] gives the connection error with the
    status code; its body is not looked at and nothing is logged. *)
Theorem ocr_api_http_failure (w : World) (cfg : Config) (b : bytes)
  (response : Response) (tr : list event) :
  requests_post w (ocr_request cfg b) = Ok response ->
  ok response = false ->
  extract_text_from_image_ocr_api w cfg (VBytes b) tt tr
  = (Ok (lit "ERROR: Server connection failed ("
         ++ str_of_int (status_code response) ++ lit ")"), tt,
     tr ++ [EvPost (ocr_request cfg b)]).
Proof.
  intros H Hok.
  unfold extract_text_from_image_ocr_api, try_except, post_image, bind, call,
    emit, ret.
  fold (ocr_request cfg b). now rewrite H, Hok.
Qed.

Lemma ocr_api_http_failure_witness :
  extract_text_from_image_ocr_api
    (answering unavailable
       (Ok {| ok := false; status_code := 503; json := unavailable |}))
    sample_config (VBytes []) tt []
  = (Ok (lit "ERROR: Server connection failed (503)"), tt,
     [EvPost (ocr_request sample_config [])]).
Proof.
  apply (ocr_api_http_failure
           (answering unavailable
              (Ok {| ok := false; status_code := 503; json := unavailable |}))
           sample_config []
           {| ok := false; status_code := 503; json := unavailable |} []);
    reflexivity.
Defined.

(** X4.  When the provider reports a processing error, the result embeds
    the first error message, or ["Unknown error"] when the key is absent;
    an empty list of messages ends in the generic handler, as
    ["ERROR: list index out of range"].  The parsed results are not
    looked at. *)
Theorem ocr_api_provider_error (w : World) (cfg : Config) (b : bytes)
  (response : Response) (result : OcrResult) (tr : list event) :
  requests_post w (ocr_request cfg b) = Ok response ->
  ok response = true ->
  json response = Ok result ->
  IsErroredOnProcessing result = Some true ->
  returned (extract_text_from_image_ocr_api w cfg (VBytes b) tt tr)
  = Ok match ErrorMessage result with
       | None => lit "ERROR: OCR processing failed: Unknown error"
       | Some (msg :: _) => lit "ERROR: OCR processing failed: " ++ msg
       | Some [] => lit "ERROR: list index out of range"
       end.
Proof.
  intros H Hok Hjson Herr.
  unfold extract_text_from_image_ocr_api, try_except, post_image, bind, call,
    emit, ret, first_item, returned.
  fold (ocr_request cfg b). rewrite H, Hok, Hjson, Herr.
  destruct (ErrorMessage result) as [[|msg msgs]|]; reflexivity.
Qed.

Lemma ocr_api_provider_error_witness :
  returned (extract_text_from_image_ocr_api
              (answering unavailable
                 (answer_of {| IsErroredOnProcessing := Some true;
                               ErrorMessage := Some [lit "bad scan"];
                               ParsedResults := None |}))
              sample_config (VBytes []) tt [])
  = Ok (lit "ERROR: OCR processing failed: bad scan").
Proof.
  apply (ocr_api_provider_error
           (answering unavailable
              (answer_of {| IsErroredOnProcessing := Some true;
                            ErrorMessage := Some [lit "bad scan"];
                            ParsedResults := None |}))
           sample_config []
           {| ok := true; status_code := 200;
              json := Ok {| IsErroredOnProcessing := Some true;
                            ErrorMessage := Some [lit "bad scan"];
                            ParsedResults := None |} |}
           {| IsErroredOnProcessing := Some true;
              ErrorMessage := Some [lit "bad scan"];
              ParsedResults := None |} []);
    reflexivity.
Defined.

(** X5.  Without a reported error, what the first parsed result holds
    under [ParsedText] decides.  A string, or no first parsed result, or
    no such key (read as [""]): the result is the trimmed text when that
    is not empty and the warning otherwise, later parsed results are
    ignored and nothing is logged.  Any other JSON value, [null]
    included: [strip] is missing, the exception ends in the generic
    handler, the result is ["ERROR: "] with its message and one entry is
    logged. *)
Theorem ocr_api_text_or_warning (w : World) (cfg : Config) (b : bytes)
  (response : Response) (result : OcrResult) (tr : list event) :
  requests_post w (ocr_request cfg b) = Ok response ->
  ok response = true ->
  json response = Ok result ->
  not_errored result ->
  extract_text_from_image_ocr_api w cfg (VBytes b) tt tr
  = match first_parsed_text result with
    | JStr t =>
        (Ok (if truthy (strip t) then strip t
             else lit "WARNING: No text detected in image"), tt,
         tr ++ [EvPost (ocr_request cfg b)])
    | JNonStr k =>
        (Ok (lit "ERROR: '" ++ type_name k
             ++ lit "' object has no attribute 'strip'"), tt,
         tr ++ [EvPost (ocr_request cfg b);
                EvLogError (lit "OCR API error: '" ++ type_name k
                            ++ lit "' object has no attribute 'strip'")])
    end.
Proof.
  intros H Hok Hjson Herr.
  unfold extract_text_from_image_ocr_api, try_except, post_image,
    strip_method, bind, call, emit, ret, first_parsed_text, log_error.
  fold (ocr_request cfg b). rewrite H, Hok, Hjson.
  assert (match IsErroredOnProcessing result with
          | Some b0 => b0 | None => false end = false) as ->
    by (destruct Herr as [-> | ->]; reflexivity).
  destruct (ParsedResults result) as [[|parsed rest]|]; try reflexivity.
  destruct (match ParsedText parsed with
            | Some v => v | None => JStr [] end) as [t|k].
  - destruct (truthy (strip t)); reflexivity.
  - unfold emit, call, ret. cbn [app]. now rewrite <- !app_assoc.
Qed.

Lemma ocr_api_text_or_warning_witness :
  extract_text_from_image_ocr_api
    (answering unavailable
       (answer_of {| IsErroredOnProcessing := Some false;
                     ErrorMessage := None;
                     ParsedResults :=
                       Some [ {| ParsedText :=
                                   Some (JStr ([sp] ++ lit "salam" ++ [nl])) |};
                              {| ParsedText := Some (JStr (lit "more")) |} ] |}))
    sample_config (VBytes []) tt []
  = (Ok (lit "salam"), tt, [EvPost (ocr_request sample_config [])])
  /\ extract_text_from_image_ocr_api
       (answering unavailable
          (answer_of {| IsErroredOnProcessing := Some false;
                        ErrorMessage := None;
                        ParsedResults :=
                          Some [ {| ParsedText := Some (JNonStr KNull) |} ] |}))
       sample_config (VBytes []) tt []
     = (Ok (lit "ERROR: 'NoneType' object has no attribute 'strip'"), tt,
        [EvPost (ocr_request sample_config []);
         EvLogError
           (lit "OCR API error: 'NoneType' object has no attribute 'strip'")]).
Proof.
  split.
  - apply (ocr_api_text_or_warning
             (answering unavailable
                (answer_of {| IsErroredOnProcessing := Some false;
                              ErrorMessage := None;
                              ParsedResults :=
                                Some [ {| ParsedText :=
                                            Some (JStr ([sp] ++ lit "salam" ++ [nl])) |};
                                       {| ParsedText := Some (JStr (lit "more")) |} ] |}))
             sample_config []
             {| ok := true; status_code := 200;
                json := Ok {| IsErroredOnProcessing := Some false;
                              ErrorMessage := None;
                              ParsedResults :=
                                Some [ {| ParsedText :=
                                            Some (JStr ([sp] ++ lit "salam" ++ [nl])) |};
                                       {| ParsedText := Some (JStr (lit "more")) |} ] |} |}
             {| IsErroredOnProcessing := Some false;
                ErrorMessage := None;
                ParsedResults :=
                  Some [ {| ParsedText :=
                              Some (JStr ([sp] ++ lit "salam" ++ [nl])) |};
                         {| ParsedText := Some (JStr (lit "more")) |} ] |} []);
      try reflexivity.
    right. reflexivity.
  - apply (ocr_api_text_or_warning
             (answering unavailable
                (answer_of {| IsErroredOnProcessing := Some false;
                              ErrorMessage := None;
                              ParsedResults :=
                                Some [ {| ParsedText := Some (JNonStr KNull) |} ] |}))
             sample_config []
             {| ok := true; status_code := 200;
                json := Ok {| IsErroredOnProcessing := Some false;
                              ErrorMessage := None;
                              ParsedResults :=
                                Some [ {| ParsedText := Some (JNonStr KNull) |} ] |} |}
             {| IsErroredOnProcessing := Some false;
                ErrorMessage := None;
                ParsedResults :=
                  Some [ {| ParsedText := Some (JNonStr KNull) |} ] |} []);
      try reflexivity.
    right. reflexivity.
Defined.

(** X6.  A path that cannot be read gives ["ERROR: "] and the message of
    the exception, with one log entry, and no request is posted. *)
Theorem ocr_api_unreadable_path (w : World) (cfg : Config) (path msg : str)
  (tr : list event) :
  read_file w path = Raise (Error msg) ->
  extract_text_from_image_ocr_api w cfg (VStr path) tt tr
  = (Ok (lit "ERROR: " ++ msg), tt,
     tr ++ [EvReadFile path; EvLogError (lit "OCR API error: " ++ msg)]).
Proof.
  intros H.
  unfold extract_text_from_image_ocr_api, try_except, bind, call, emit, ret,
    log_error.
  rewrite H. unfold emit. now rewrite <- app_assoc.
Qed.

Lemma ocr_api_unreadable_path_witness :
  extract_text_from_image_ocr_api silent_world sample_config
    (VStr (lit "scan.png")) tt []
  = (Ok (lit "ERROR: unavailable"), tt,
     [EvReadFile (lit "scan.png");
      EvLogError (lit "OCR API error: unavailable")]).
Proof.
  apply (ocr_api_unreadable_path silent_world sample_config
           (lit "scan.png") (lit "unavailable") []).
  reflexivity.
Defined.

(** X7.  Called with bytes, the extractor posts exactly one request, which
    carries these bytes with the fixed parameters and the configured key;
    after it there is at most one event, a log entry. *)
Theorem ocr_api_posts_once (w : World) (cfg : Config) (b : bytes)
  (tr : list event) :
  exists s rest,
    extract_text_from_image_ocr_api w cfg (VBytes b) tt tr
    = (Ok s, tt, tr ++ EvPost (ocr_request cfg b) :: rest)
    /\ (rest = [] \/ exists msg, rest = [EvLogError msg])
    /\ file_bytes (ocr_request cfg b) = b
    /\ apikey (ocr_request cfg b) = OCR_API_KEY cfg.
Proof.
  destruct (post_image_posts_once w cfg b tr) as (r & E & _).
  unfold extract_text_from_image_ocr_api, try_except. rewrite E.
  destruct r as [s|[msg|msg]].
  - exists s, []. repeat split. now left.
  - eexists _, []. repeat split. now left.
  - eexists _, [_]. unfold bind, log_error, emit, ret.
    rewrite <- app_assoc. repeat split. right. eexists. reflexivity.
Qed.

(** X8.  A readable path behaves as the bytes of the file: after the
    read, the call goes on as the call with these bytes. *)
Theorem ocr_api_path_as_bytes (w : World) (cfg : Config) (path : str)
  (b : bytes) (tr : list event) :
  read_file w path = Ok b ->
  extract_text_from_image_ocr_api w cfg (VStr path) tt tr
  = extract_text_from_image_ocr_api w cfg (VBytes b) tt
      (tr ++ [EvReadFile path]).
Proof.
  intros H.
  unfold extract_text_from_image_ocr_api, try_except.
  unfold bind at 1, emit, bind at 1, call. rewrite H. reflexivity.
Qed.

Lemma ocr_api_path_as_bytes_witness :
  extract_text_from_image_ocr_api
    (answering (Ok []) unavailable) sample_config (VStr (lit "scan.png")) tt []
  = extract_text_from_image_ocr_api
      (answering (Ok []) unavailable) sample_config (VBytes []) tt
      [EvReadFile (lit "scan.png")].
Proof.
  apply (ocr_api_path_as_bytes (answering (Ok []) unavailable) sample_config
           (lit "scan.png") [] []).
  reflexivity.
Defined.

(* ================================================================== *)
(** ** The local extractor and the PDF extractor: failures and logs *)

(** X9.  When the decoding, the conversion or the engine raises, the local
    extractor returns the error string with the message of the exception
    and logs one entry; a page number adds no banner to it. *)
Theorem tesseract_failure (w : World) (cfg : Config) (image : ImageArg)
  (e : exn) (page_number : option Z) (tr : list event) :
  ocr_fails w cfg image e ->
  extract_text_from_image_tesseract w cfg image page_number tt tr
  = (Ok (lit "ERROR: Image processing failed: " ++ exn_str e), tt,
     tr ++ [EvLogError (lit "Tesseract OCR error: " ++ exn_str e)]).
Proof.
  unfold ocr_fails, extract_text_from_image_tesseract, try_except, bind, call,
    ret, log_error, emit.
  intros H.
  destruct image as [i | data].
  - destruct (Image_convert w i (lit "RGB")) as [rgb|e']; [|now subst].
    now rewrite H.
  - destruct (Image_open w (VBytesIO data)) as [img|e']; [|now subst].
    destruct (Image_convert w img (lit "RGB")) as [rgb|e']; [|now subst].
    now rewrite H.
Qed.

Lemma tesseract_failure_witness :
  extract_text_from_image_tesseract silent_world sample_config (Raw [])
    (Some 3) tt []
  = (Ok (lit "ERROR: Image processing failed: unavailable"), tt,
     [EvLogError (lit "Tesseract OCR error: unavailable")]).
Proof.
  apply (tesseract_failure silent_world sample_config (Raw [])
           (Error (lit "unavailable")) (Some 3) []).
  reflexivity.
Defined.

Section PdfLogs.

Variable w : World.
Variable cfg : Config.

Lemma tesseract_page_log (image : Image) (i : Z) (tr : list event) :
  extract_text_from_image_tesseract w cfg (Decoded image) (Some i) tt tr
  = (Ok (page_text w cfg i image), tt, tr ++ page_log w cfg image).
Proof.
  unfold extract_text_from_image_tesseract, page_text, page_log, page_outcome,
    try_except, bind, call, ret, log_error, emit.
  destruct (Image_convert w image (lit "RGB")) as [rgb|e]; [|reflexivity].
  destruct (image_to_string w rgb (OCR_LANGUAGES cfg) (OCR_CONFIG cfg));
    [now rewrite app_nil_r | reflexivity].
Qed.

Lemma pages_loop_log (total_pages : Z) (images : list Image) :
  forall i all_text tr,
    snd (pages_loop w cfg total_pages i images all_text tt tr)
    = tr ++ flat_map (page_log w cfg) images
    /\ exists texts,
         fst (pages_loop w cfg total_pages i images all_text tt tr)
         = (Ok texts, tt).
Proof.
  induction images as [|image images IH]; intros i all_text tr; simpl.
  - split; [now rewrite app_nil_r | now exists all_text].
  - unfold bind, invoke. rewrite tesseract_page_log.
    destruct (IH (i + 1)
                (if i <? total_pages
                 then (all_text ++ [page_text w cfg i image]) ++ [page_separator]
                 else all_text ++ [page_text w cfg i image])
                (tr ++ page_log w cfg image)) as [E Hok].
    split; [|exact Hok]. rewrite E. now rewrite <- app_assoc.
Qed.

End PdfLogs.

(** X10.  Once the document is rasterized, the PDF extractor returns a
    string and what it leaves behind is one log entry for each page whose
    extraction raised, in page order: no entry of its own, no file read,
    no request. *)
Theorem pdf_logs_failed_pages (w : World) (cfg : Config) (pdf_file : PdfArg)
  (images : list Image) (tr : list event) :
  rasterize w cfg pdf_file = Ok images ->
  exists text,
    extract_text_from_pdf w cfg pdf_file tt tr
    = (Ok text, tt, tr ++ flat_map (page_log w cfg) images).
Proof.
  intros Hr.
  destruct (pages_loop_log w cfg (Z.of_nat (List.length images)) images 1 [] tr)
    as [Hlog (texts & Hok)].
  destruct (pages_loop w cfg (Z.of_nat (List.length images)) 1 images [] tt tr)
    as [[r u] t] eqn:E.
  simpl in Hlog, Hok. injection Hok as -> ->. subst t.
  unfold extract_text_from_pdf, try_except, bind.
  destruct pdf_file as [data | [data | e]]; simpl in Hr;
    unfold call; try discriminate; rewrite Hr, E; eexists; reflexivity.
Qed.

Lemma pdf_logs_failed_pages_witness :
  exists text,
    extract_text_from_pdf second_page_fails sample_config (PdfBytes []) tt []
    = (Ok text, tt, [EvLogError (lit "Tesseract OCR error: boom")]).
Proof.
  apply (pdf_logs_failed_pages second_page_fails sample_config (PdfBytes [])
           [page_one; page_two] []).
  reflexivity.
Defined.

(** X11.  A document without pages is no error: the result is the header
    with a page count of 0.  A document of one page is the header and the
    text of that page, with no separator. *)
Theorem pdf_few_pages (w : World) (cfg : Config) (pdf_file : PdfArg)
  (tr : list event) :
  (rasterize w cfg pdf_file = Ok [] ->
   returned (extract_text_from_pdf w cfg pdf_file tt tr)
   = Ok (lit "Total Pages: 0" ++ [nl]
         ++ lit "==================================================" ++ [nl; nl]))
  /\ (forall image,
         rasterize w cfg pdf_file = Ok [image] ->
         returned (extract_text_from_pdf w cfg pdf_file tt tr)
         = Ok (lit "Total Pages: 1" ++ [nl]
               ++ lit "==================================================" ++ [nl; nl]
               ++ page_text w cfg 1 image)).
Proof.
  split.
  - intros Hr. rewrite (pdf_rasterized w cfg pdf_file [] tr Hr). reflexivity.
  - intros image Hr. rewrite (pdf_rasterized w cfg pdf_file [image] tr Hr).
    reflexivity.
Qed.

Lemma pdf_few_pages_witness :
  returned (extract_text_from_pdf (rasterizing []) sample_config
              (PdfBytes []) tt [])
  = Ok (lit "Total Pages: 0" ++ [nl]
        ++ lit "==================================================" ++ [nl; nl])
  /\ returned (extract_text_from_pdf (rasterizing [page_one]) sample_config
                 (PdfStream (Ok [])) tt [])
     = Ok (lit "Total Pages: 1" ++ [nl]
           ++ lit "==================================================" ++ [nl; nl]
           ++ page_header 1 ++ lit "text").
Proof.
  split.
  - apply (proj1 (pdf_few_pages (rasterizing []) sample_config
                    (PdfBytes []) [])).
    reflexivity.
  - apply (proj2 (pdf_few_pages (rasterizing [page_one]) sample_config
                    (PdfStream (Ok [])) []) page_one).
    reflexivity.
Defined.

(* ================================================================== *)
(** ** The splitter and the statistics: texts that fit, counts *)

Section FittingText.

Variable L : Z.

Lemma drop_while_all p (s : str) : forallb p s = true -> drop_while p s = [].
Proof.
  induction s as [|c s IH]; simpl; [reflexivity|].
  destruct (p c); [exact IH | discriminate].
Qed.

Lemma strip_snoc_space (s : str) (c : char) :
  isspace c = true -> strip (s ++ [c]) = strip s.
Proof.
  intros Hc. unfold strip, lstrip. rewrite drop_while_snoc by exact Hc.
  destruct (forallb isspace s) eqn:E.
  - now rewrite (drop_while_all _ _ E).
  - now apply rstrip_snoc.
Qed.

(** While the lines read so far and the next one fit, nothing is
    flushed. *)
Lemma run_lines_fit (ls : list str) : forall cur,
  ls <> [] ->
  len cur + len (join [nl] ls) + 1 <= L ->
  run_lines L ls ([], cur) = ([], cur ++ join [nl] ls ++ [nl]).
Proof.
  unfold run_lines.
  induction ls as [|l ls IH]; intros cur Hne Hfit; [congruence|].
  destruct ls as [|l' ls'].
  - cbn [fold_left]. rewrite line_step_fits; [reflexivity|].
    apply Z.leb_le. exact Hfit.
  - rewrite join_cons in *. rewrite !len_app, len_single in Hfit.
    pose proof (len_nonneg (join [nl] (l' :: ls'))).
    change (fold_left (line_step L) (l :: l' :: ls') ([], cur))
      with (fold_left (line_step L) (l' :: ls') (line_step L ([], cur) l)).
    rewrite line_step_fits by (apply Z.leb_le; cbn [snd]; lia).
    cbn [fst snd]. rewrite IH.
    + now rewrite <- !app_assoc.
    + discriminate.
    + rewrite !len_app, len_single. lia.
Qed.

End FittingText.

(** X12.  A text shorter than the limit, or a text without a newline that
    is not longer than the limit, comes back as one chunk, the trimmed
    text. *)
Theorem split_message_fits (T : str) (L : Z) :
  len T < L \/ (len T <= L /\ Forall (fun c => c <> nl) T) ->
  split_message T L = [strip T].
Proof.
  assert (finish ([], T ++ [nl]) = [strip T]) as Hfin.
  { unfold finish.
    assert (truthy (T ++ [nl]) = true) as -> by now destruct T.
    now rewrite (strip_snoc_space T nl isspace_nl). }
  assert (len T < L -> split_message T L = [strip T]) as Hshort.
  { intros Hlt. unfold split_message.
    erewrite run_lines_fit.
    - now rewrite join_split_on.
    - apply split_on_nonempty.
    - rewrite join_split_on. cbn. lia. }
  intros [Hlt | [Hle Hnl]]; [now apply Hshort|].
  destruct (Z.eq_dec (len T) L) as [Heq | Hne]; [|apply Hshort; lia].
  unfold split_message, run_lines. rewrite (split_on_no_sep nl T Hnl).
  cbn [fold_left]. rewrite line_step_next.
  - exact Hfin.
  - apply Z.leb_gt. cbn. lia.
  - rewrite Z.gtb_ltb. apply Z.ltb_ge. lia.
Qed.

Lemma split_message_fits_witness :
  split_message ([sp] ++ lit "one" ++ [nl] ++ lit "two" ++ [nl]) 10
  = [lit "one" ++ [nl] ++ lit "two"]
  /\ split_message (lit "exact") 5 = [lit "exact"].
Proof.
  split.
  - apply (split_message_fits ([sp] ++ lit "one" ++ [nl] ++ lit "two" ++ [nl]) 10).
    left. cbn. lia.
  - apply (split_message_fits (lit "exact") 5).
    right. split; [cbn; lia|].
    repeat constructor; discriminate.
Defined.

(** A text with a newline that is exactly as long as the limit does not
    fit: the newline appended to the last line counts. *)
Example split_message_exact_two_lines :
  split_message (lit "a" ++ [nl] ++ lit "b") 3 = [lit "a"; lit "b"].
Proof. reflexivity. Qed.

Section Counts.

Lemma words_of_eq (text : str) :
  words_of text = Z.of_nat (List.length (split_ws text)).
Proof. reflexivity. Qed.

Lemma total_words_tokens (chunks : list str) :
  total_words chunks = Z.of_nat (List.length (flat_map split_ws chunks)).
Proof.
  induction chunks as [|c cs IH]; [reflexivity|].
  cbn [total_words fold_right flat_map]. fold (total_words cs).
  rewrite IH, words_of_eq, length_app. lia.
Qed.

Lemma split_on_length (s : str) :
  List.length (split_on nl s)
  = S (List.length (filter (fun c => (c =? nl)%N) s)).
Proof.
  induction s as [|c s IH]; [reflexivity|]. cbn [split_on filter].
  pose proof (split_on_nonempty nl s) as Hne.
  destruct (c =? nl)%N; cbn [List.length].
  - now rewrite IH.
  - destruct (split_on nl s); [congruence | exact IH].
Qed.

Lemma split_on_count (s : str) :
  Z.of_nat (List.length (split_on nl s)) = 1 + count_newlines s.
Proof. unfold count_newlines. rewrite split_on_length. lia. Qed.

Lemma scan_words_count (s : str) : forall w,
  (2 * List.length (scan_words w s)
   <= List.length s + match w with [] => 1 | _ => 2 end)%nat.
Proof.
  induction s as [|c s IH]; intros w; simpl.
  - destruct w; simpl; lia.
  - destruct (isspace c).
    + destruct w; simpl; pose proof (IH []); simpl in *; lia.
    + pose proof (IH (c :: w)). simpl in *. destruct w; lia.
Qed.

Lemma split_on_app_sep (sep : char) (a b : str) :
  split_on sep (a ++ sep :: b) = split_on sep a ++ split_on sep b.
Proof.
  induction a as [|c a IH]; simpl.
  - now rewrite N.eqb_refl.
  - rewrite IH. pose proof (split_on_nonempty sep a) as Hne.
    destruct (c =? sep)%N; [reflexivity|].
    destruct (split_on sep a); [congruence | reflexivity].
Qed.

End Counts.

(** X13.  Splitting keeps the word count: the [words] statistics of the
    chunks add up to the [words] statistic of the text. *)
Theorem split_message_word_count (T : str) (L : Z) :
  total_words (split_message T L) = words_of T.
Proof.
  now rewrite total_words_tokens, split_message_tokens, words_of_eq.
Qed.

(** X19.  On a string the statistics are returned and nothing is logged;
    the line count is one more than the number of newlines, the character
    count is the length, and words and lines are bounded by it:
    [2 * words <= characters + 1] and [lines <= characters + 1]. *)
Theorem text_statistics_counts (text : str) (tr : list event) :
  exists r,
    get_text_statistics text tt tr = (Ok (Some r), tt, tr)
    /\ lines r = 1 + count_newlines text
    /\ characters r = len text
    /\ 2 * words r <= characters r + 1
    /\ lines r <= characters r + 1.
Proof.
  eexists. split; [reflexivity|]. cbn [lines words characters].
  split; [apply split_on_count|]. split; [reflexivity|].
  split.
  - pose proof (scan_words_count text []) as H. cbv beta iota in H.
    unfold split_ws, len. lia.
  - rewrite split_on_count. unfold count_newlines, len.
    pose proof (filter_length_le (fun c => (c =? nl)%N) text).
    unfold char in *. lia.
Qed.

(** X20.  The statistics of two texts joined by a newline: the lines and
    the words add up, the characters add up with one more for the
    newline. *)
Theorem text_statistics_join (a b : str) (tr : list event) :
  exists ra rb r,
    get_text_statistics a tt tr = (Ok (Some ra), tt, tr)
    /\ get_text_statistics b tt tr = (Ok (Some rb), tt, tr)
    /\ get_text_statistics (a ++ [nl] ++ b) tt tr = (Ok (Some r), tt, tr)
    /\ lines r = lines ra + lines rb
    /\ words r = words ra + words rb
    /\ characters r = characters ra + characters rb + 1.
Proof.
  do 3 eexists. do 3 (split; [reflexivity|]).
  cbn [lines words characters app].
  rewrite split_on_app_sep, (split_ws_app_space a b nl isspace_nl).
  rewrite !length_app, len_app. unfold len. cbn [List.length]. lia.
Qed.

(* ================================================================== *)
(** ** Validation and enhancement: every path *)

Section AllowList.

Lemma str_eqb_eq (a : str) : forall b, str_eqb a b = true -> a = b.
Proof.
  induction a as [|x a IH]; intros [|y b] H; simpl in H;
    try discriminate; [reflexivity|].
  apply andb_true_iff in H as [Hx Hab].
  apply N.eqb_eq in Hx. subst. f_equal. now apply IH.
Qed.

Lemma str_in_sound (a : str) (xs : list str) : str_in a xs = true -> In a xs.
Proof.
  intros H. apply existsb_exists in H as (b & Hin & E).
  apply str_eqb_eq in E. now subst.
Qed.

Lemma str_in_refused (a : str) (xs : list str) :
  ~ In a xs -> str_in a xs = false.
Proof.
  intros H. destruct (str_in a xs) eqn:E; [|reflexivity].
  now apply str_in_sound in E.
Qed.

End AllowList.

(** X14.  [validate_image] never raises and leaves no event behind, not
    even a log entry; its verdict is [True] exactly when the input
    decodes to an image within both bounds whose format is JPEG, PNG, BMP
    or TIFF, and the message is then ["OK"]. *)
Theorem validate_image_accepts_iff (w : World) (cfg : Config)
  (image_data : pyval) (tr : list event) :
  exists verdict msg,
    validate_image w cfg image_data tt tr = (Ok (verdict, msg), tt, tr)
    /\ (verdict = true <->
        exists image f,
          open_image_data w image_data = Ok image
          /\ fst (size image) <= fst (MAX_IMAGE_SIZE cfg)
          /\ snd (size image) <= snd (MAX_IMAGE_SIZE cfg)
          /\ format image = Some f
          /\ In f [lit "JPEG"; lit "PNG"; lit "BMP"; lit "TIFF"])
    /\ (verdict = true -> msg = lit "OK").
Proof.
  unfold validate_image, try_except, bind, call, ret.
  destruct (open_image_data w image_data) as [image|e].
  - destruct (Z.gtb_spec (fst (size image)) (fst (MAX_IMAGE_SIZE cfg)))
      as [Hw|Hw]; cbn [orb].
    + do 2 eexists. split; [reflexivity|]. split; [|discriminate].
      split; [discriminate|].
      intros (i & f & E & Hw' & _). injection E as <-. lia.
    + destruct (Z.gtb_spec (snd (size image)) (snd (MAX_IMAGE_SIZE cfg)))
        as [Hh|Hh].
      * do 2 eexists. split; [reflexivity|]. split; [|discriminate].
        split; [discriminate|].
        intros (i & f & E & _ & Hh' & _). injection E as <-. lia.
      * destruct (format image) as [f|] eqn:Hf.
        -- destruct (str_in f allowed_formats) eqn:Hin; cbn [negb].
           ++ do 2 eexists. split; [reflexivity|]. split; [|reflexivity].
              split; [|reflexivity]. intros _.
              exists image, f. repeat split; try assumption.
              now apply str_in_sound.
           ++ do 2 eexists. split; [reflexivity|]. split; [|discriminate].
              split; [discriminate|].
              intros (i & f' & E & _ & _ & Hf' & Hin').
              injection E as <-. rewrite Hf in Hf'. injection Hf' as <-.
              apply (str_in_In f allowed_formats) in Hin'. congruence.
        -- do 2 eexists. split; [reflexivity|]. split; [|discriminate].
           split; [discriminate|].
           intros (i & f' & E & _ & _ & Hf' & _).
           injection E as <-. congruence.
  - do 2 eexists. split; [reflexivity|]. split; [|discriminate].
    split; [discriminate|]. intros (i & f & E & _). discriminate.
Qed.

(** X15.  The refusals of [validate_image] besides the size: an input
    that does not decode gives the message of the exception; an image
    within the bounds whose format is missing or not allowed gives
    ["Unsupported image format"]. *)
Theorem validate_image_refusals (w : World) (cfg : Config)
  (image_data : pyval) (tr : list event) :
  (forall e,
      open_image_data w image_data = Raise e ->
      validate_image w cfg image_data tt tr = (Ok (false, exn_str e), tt, tr))
  /\ (forall image,
         open_image_data w image_data = Ok image ->
         fst (size image) <= fst (MAX_IMAGE_SIZE cfg) ->
         snd (size image) <= snd (MAX_IMAGE_SIZE cfg) ->
         format_refused image ->
         validate_image w cfg image_data tt tr
         = (Ok (false, lit "Unsupported image format"), tt, tr)).
Proof.
  unfold validate_image, try_except, bind, call, ret.
  split.
  - intros e ->. reflexivity.
  - intros image -> Hw Hh Hf.
    assert ((fst (size image) >? fst (MAX_IMAGE_SIZE cfg))
            || (snd (size image) >? snd (MAX_IMAGE_SIZE cfg)) = false) as ->.
    { apply orb_false_iff. split; rewrite Z.gtb_ltb; apply Z.ltb_ge; assumption. }
    unfold format_refused in Hf.
    destruct (format image) as [f|]; [|reflexivity].
    now rewrite (str_in_refused f allowed_formats Hf).
Qed.

Lemma validate_image_refusals_witness :
  validate_image silent_world sample_config (VImage gray_scan) tt []
  = (Ok (false, lit "unavailable"), tt, [])
  /\ validate_image (opens_as (blank (lit "P") 32 32 (Some (lit "GIF"))))
       sample_config (VStr (lit "icon.gif")) tt []
     = (Ok (false, lit "Unsupported image format"), tt, []).
Proof.
  split.
  - apply (proj1 (validate_image_refusals silent_world sample_config
                    (VImage gray_scan) []) (Error (lit "unavailable"))).
    reflexivity.
  - apply (proj2 (validate_image_refusals
                    (opens_as (blank (lit "P") 32 32 (Some (lit "GIF"))))
                    sample_config (VStr (lit "icon.gif")) [])
             (blank (lit "P") 32 32 (Some (lit "GIF"))));
      [reflexivity | simpl; lia | simpl; lia |].
    simpl. intros [H | [H | [H | [H | []]]]]; discriminate.
Defined.

Section Enhancement.

Variable w : World.

(** The four rebinding steps, from the image they start with. *)
Lemma enhance_body_steps (image : Image) (tr : list event) :
  enhance_body w image tr
  = match import_PIL_enhance w with
    | Raise e => (Ok image, image, tr ++ [enhancement_log e])
    | Ok _ =>
        match enhance_start w image with
        | Raise e => (Ok image, image, tr ++ [enhancement_log e])
        | Ok i1 =>
            match Sharpness_enhance w i1 (QArith_base.Qmake 2 1) with
            | Raise e => (Ok i1, i1, tr ++ [enhancement_log e])
            | Ok i2 =>
                match Contrast_enhance w i2 (QArith_base.Qmake 3 2) with
                | Raise e => (Ok i2, i2, tr ++ [enhancement_log e])
                | Ok i3 =>
                    match ImageOps_grayscale w i3 with
                    | Raise e => (Ok i3, i3, tr ++ [enhancement_log e])
                    | Ok i4 => (Ok i4, i4, tr)
                    end
                end
            end
        end
    end.
Proof.
  unfold enhance_body, enhance_start, rebind, try_except, bind, call, get, put,
    ret, log_error, emit, enhancement_log.
  destruct (import_PIL_enhance w); [|reflexivity].
  destruct (str_eqb (mode image) (lit "RGB")); cbn [negb].
  - destruct (Sharpness_enhance w image (QArith_base.Qmake 2 1)) as [i2|];
      [|reflexivity].
    destruct (Contrast_enhance w i2 (QArith_base.Qmake 3 2)) as [i3|];
      [|reflexivity].
    destruct (ImageOps_grayscale w i3); reflexivity.
  - destruct (Image_convert w image (lit "RGB")) as [i1|]; [|reflexivity].
    destruct (Sharpness_enhance w i1 (QArith_base.Qmake 2 1)) as [i2|];
      [|reflexivity].
    destruct (Contrast_enhance w i2 (QArith_base.Qmake 3 2)) as [i3|];
      [|reflexivity].
    destruct (ImageOps_grayscale w i3); reflexivity.
Qed.

End Enhancement.

(** X16.  The enhancement never raises: it returns an image and leaves
    either nothing behind or one log entry. *)
Theorem enhance_logs_at_most_once (w : World) (image : Image)
  (tr : list event) :
  exists image',
    enhance_image_for_ocr w image tt tr = (Ok image', tt, tr)
    \/ exists e,
         enhance_image_for_ocr w image tt tr
         = (Ok image', tt, tr ++ [enhancement_log e]).
Proof.
  unfold enhance_image_for_ocr. rewrite enhance_body_steps.
  destruct (import_PIL_enhance w); [|eexists; right; eexists; reflexivity].
  destruct (enhance_start w image) as [i1|];
    [|eexists; right; eexists; reflexivity].
  destruct (Sharpness_enhance w i1 (QArith_base.Qmake 2 1)) as [i2|];
    [|eexists; right; eexists; reflexivity].
  destruct (Contrast_enhance w i2 (QArith_base.Qmake 3 2)) as [i3|];
    [|eexists; right; eexists; reflexivity].
  destruct (ImageOps_grayscale w i3);
    [eexists; left; reflexivity | eexists; right; eexists; reflexivity].
Qed.

(** X17.  When the import or the conversion to RGB raises, or when the
    input is already RGB and the sharpening raises, the image returned is
    the input itself, and the exception is logged. *)
Theorem enhance_fails_early (w : World) (image : Image) (e : exn)
  (tr : list event) :
  import_PIL_enhance w = Raise e
  \/ (import_PIL_enhance w = Ok tt /\ enhance_start w image = Raise e)
  \/ (import_PIL_enhance w = Ok tt
      /\ str_eqb (mode image) (lit "RGB") = true
      /\ Sharpness_enhance w image (QArith_base.Qmake 2 1) = Raise e) ->
  enhance_image_for_ocr w image tt tr
  = (Ok image, tt, tr ++ [enhancement_log e]).
Proof.
  unfold enhance_image_for_ocr. rewrite enhance_body_steps.
  intros [H | [[Hi H] | (Hi & Hm & H)]].
  - now rewrite H.
  - now rewrite Hi, H.
  - rewrite Hi. unfold enhance_start. now rewrite Hm, H.
Qed.

Lemma enhance_fails_early_witness :
  enhance_image_for_ocr silent_world gray_scan tt []
  = (Ok gray_scan, tt, [enhancement_log (Error (lit "unavailable"))])
  /\ enhance_image_for_ocr sharpening_fails (blank (lit "RGB") 8 8 None) tt []
     = (Ok (blank (lit "RGB") 8 8 None), tt,
        [enhancement_log (Error (lit "out of memory"))]).
Proof.
  split.
  - apply (enhance_fails_early silent_world gray_scan
             (Error (lit "unavailable")) []).
    left. reflexivity.
  - apply (enhance_fails_early sharpening_fails (blank (lit "RGB") 8 8 None)
             (Error (lit "out of memory")) []).
    right. right. repeat split.
Defined.

(** X18.  When every step goes through, the result is the grey-scale of
    the contrast adjustment (factor 3/2) of the sharpening (factor 2) of
    the starting image, and nothing is logged; an RGB input is not
    converted first. *)
Theorem enhance_succeeds (w : World) (image i1 i2 i3 i4 : Image)
  (tr : list event) :
  import_PIL_enhance w = Ok tt ->
  enhance_start w image = Ok i1 ->
  Sharpness_enhance w i1 (QArith_base.Qmake 2 1) = Ok i2 ->
  Contrast_enhance w i2 (QArith_base.Qmake 3 2) = Ok i3 ->
  ImageOps_grayscale w i3 = Ok i4 ->
  enhance_image_for_ocr w image tt tr = (Ok i4, tt, tr)
  /\ (str_eqb (mode image) (lit "RGB") = true -> i1 = image).
Proof.
  intros Hi H1 H2 H3 H4. split.
  - unfold enhance_image_for_ocr. rewrite enhance_body_steps.
    now rewrite Hi, H1, H2, H3, H4.
  - intros Hm. unfold enhance_start in H1. rewrite Hm in H1.
    now injection H1.
Qed.

Lemma enhance_succeeds_witness :
  enhance_image_for_ocr enhancing gray_scan tt []
  = (Ok (blank (lit "L") 640 480 None), tt, []).
Proof.
  apply (enhance_succeeds enhancing gray_scan
           (blank (lit "RGB") 640 480 None)
           (blank (lit "sharp") 640 480 None)
           (blank (lit "contrast") 640 480 None)
           (blank (lit "L") 640 480 None) []);
    reflexivity.
Defined.

(** X21.  When a later step raises, the image returned is the result of
    the steps before it: the starting image if the sharpening raises, the
    sharpened image if the contrast adjustment raises, the
    contrast-adjusted image if the grey-scale conversion raises. *)
Theorem enhance_fails_late (w : World) (image i1 : Image) (e : exn)
  (tr : list event) :
  import_PIL_enhance w = Ok tt ->
  enhance_start w image = Ok i1 ->
  (Sharpness_enhance w i1 (QArith_base.Qmake 2 1) = Raise e ->
   enhance_image_for_ocr w image tt tr
   = (Ok i1, tt, tr ++ [enhancement_log e]))
  /\ (forall i2,
         Sharpness_enhance w i1 (QArith_base.Qmake 2 1) = Ok i2 ->
         (Contrast_enhance w i2 (QArith_base.Qmake 3 2) = Raise e ->
          enhance_image_for_ocr w image tt tr
          = (Ok i2, tt, tr ++ [enhancement_log e]))
         /\ (forall i3,
                Contrast_enhance w i2 (QArith_base.Qmake 3 2) = Ok i3 ->
                ImageOps_grayscale w i3 = Raise e ->
                enhance_image_for_ocr w image tt tr
                = (Ok i3, tt, tr ++ [enhancement_log e]))).
Proof.
  intros Hi H1.
  unfold enhance_image_for_ocr. rewrite enhance_body_steps, Hi, H1.
  split; [now intros -> |].
  intros i2 ->. split; [now intros -> |].
  now intros i3 -> ->.
Qed.

Lemma enhance_fails_late_witness :
  enhance_image_for_ocr sharpening_fails gray_scan tt []
  = (Ok (blank (lit "RGB") 640 480 None), tt,
     [enhancement_log (Error (lit "out of memory"))]).
Proof.
  apply (proj1 (enhance_fails_late sharpening_fails gray_scan
                  (blank (lit "RGB") 640 480 None)
                  (Error (lit "out of memory")) []
                  eq_refl eq_refl)).
  reflexivity.
Defined.
